(** * Vanishing Tic-Tac-Toe: the game engine of [gitana.py]

    A shallow embedding of the session state and of the functions
    [reset_game], [check_winner], [is_board_full] and [make_move], followed
    by the properties of the engine.

    Python lists are modelled as Rocq lists read and written through
    Python's indexing rule (negative indices count from the end, anything
    else out of range raises [IndexError]); Python [int]s are [Z]; the
    strings ['X'], ['O'], [''] and ["Tie"] are Rocq strings.  The session
    store [st.session_state] is a record threaded through a state monad in
    which a raised exception keeps the store as it was at the raise. *)

From Stdlib Require Import QArith.
From stdpp Require Import base tactics option list strings pretty.

Local Open Scope string_scope.
Local Open Scope Z_scope.

(** ** Exceptions and Python indexing *)

Inductive exn : Type := IndexError.

Inductive exc (A : Type) : Type :=
| Return (a : A)
| Raise (e : exn).
Arguments Return {A} a.
Arguments Raise {A} e.

#[global] Instance exc_ret : MRet exc := λ A a, Return a.
#[global] Instance exc_bind : MBind exc := λ A B f m,
  match m with
  | Return a => f a
  | Raise e => Raise e
  end.

(** [l[i]] resolves its index first: a negative [i] is taken from the end,
    and what is still outside [0, len) raises. *)
Definition py_index (len : nat) (i : Z) : exc nat :=
  let i' := if i <? 0 then i + Z.of_nat len else i in
  if (i' <? 0) || (Z.of_nat len <=? i') then Raise IndexError
  else Return (Z.to_nat i').

Definition py_getitem {A : Type} (l : list A) (i : Z) : exc A :=
  k ← py_index (length l) i;
  match l !! k with
  | Some x => Return x
  | None => Raise IndexError
  end.

Definition py_setitem {A : Type} (l : list A) (i : Z) (v : A) : exc (list A) :=
  k ← py_index (length l) i;
  Return (<[k := v]> l).

(** [l.pop(0)] *)
Definition py_pop0 {A : Type} (l : list A) : exc (A * list A) :=
  match l with
  | [] => Raise IndexError
  | x :: l' => Return (x, l')
  end.

(** ** The session state (lines 5-17) *)

(** [time.time()] is a clock reading handed in by the environment; the
    engine stores it in the move record and never looks at it again. *)
Definition timestamp : Type := Q.

Abbreviation board_t := (list (list string)).

(** A move record is the tuple [(row, col, player, timestamp)]. *)
Definition move : Type := Z * Z * string * timestamp.

Definition move_row (m : move) : Z := m.1.1.1.
Definition move_col (m : move) : Z := m.1.1.2.
Definition move_player (m : move) : string := m.1.2.

Record session_state : Type := SessionState {
  board : board_t;
  move_history : list move;
  current_player : string;
  game_over : bool;
  winner : option string;
  vanish_after : Z
}.

Definition set_board (b : board_t) (s : session_state) : session_state :=
  SessionState b (move_history s) (current_player s) (game_over s)
               (winner s) (vanish_after s).
Definition set_move_history (h : list move) (s : session_state) : session_state :=
  SessionState (board s) h (current_player s) (game_over s)
               (winner s) (vanish_after s).
Definition set_current_player (p : string) (s : session_state) : session_state :=
  SessionState (board s) (move_history s) p (game_over s)
               (winner s) (vanish_after s).
Definition set_game_over (g : bool) (s : session_state) : session_state :=
  SessionState (board s) (move_history s) (current_player s) g
               (winner s) (vanish_after s).
Definition set_winner (w : option string) (s : session_state) : session_state :=
  SessionState (board s) (move_history s) (current_player s) (game_over s)
               w (vanish_after s).
Definition set_vanish_after (v : Z) (s : session_state) : session_state :=
  SessionState (board s) (move_history s) (current_player s) (game_over s)
               (winner s) v.

(** [[['' for _ in range(3)] for _ in range(3)]] *)
Definition empty_board : board_t := replicate 3 (replicate 3 "").

(** The store as the script's first run leaves it (lines 6-17). *)
Definition initial_session : session_state :=
  SessionState empty_board [] "X" false None 3.

(** ** The monad of engine operations *)

Definition M (A : Type) : Type := session_state → exc A * session_state.

#[global] Instance M_ret : MRet M := λ A a s, (Return a, s).
#[global] Instance M_bind : MBind M := λ A B f m s,
  match m s with
  | (Return a, s') => f a s'
  | (Raise e, s') => (Raise e, s')
  end.

Definition get : M session_state := λ s, (Return s, s).
Definition modify (f : session_state → session_state) : M unit :=
  λ s, (Return (), f s).
Definition lift {A : Type} (e : exc A) : M A := λ s, (e, s).

(** ** [reset_game] (lines 19-25) *)

Definition reset_game : M unit :=
  modify (set_board empty_board);;
  modify (set_move_history []);;
  modify (set_current_player "X");;
  modify (set_game_over false);;
  modify (set_winner None).

(** A new game with vanish limit [v].  The settings handler (lines 117-118)
    stores the chosen limit and calls [reset_game]; the "New Game" button
    (line 122) calls [reset_game] with the limit already stored, which is
    the same store when that limit is [v]. *)
Definition new_game (v : Z) : M unit :=
  modify (set_vanish_after v);;
  reset_game.

(** ** [check_winner] (lines 27-45) *)

(** [x == y == z != ''], evaluated left to right with Python's short
    circuit: [z] is read only when [x == y]. *)
Definition chain3 (x y : exc string) (z : exc string) : exc bool :=
  a ← x; b ← y;
  if negb (String.eqb a b) then Return false
  else c ← z; Return (String.eqb b c && negb (String.eqb c "")).
Arguments chain3 : simpl never.

(** [for row in board: ...] *)
Fixpoint check_rows (rows : list (list string)) (k : exc (option string))
  : exc (option string) :=
  match rows with
  | [] => k
  | row :: rest =>
      hit ← chain3 (py_getitem row 0) (py_getitem row 1) (py_getitem row 2);
      if hit : bool then w ← py_getitem row 0; Return (Some w)
      else check_rows rest k
  end.

Definition py_getitem2 (b : board_t) (i j : Z) : exc string :=
  row ← py_getitem b i; py_getitem row j.

(** [for col in range(3): ...] *)
Fixpoint check_cols (b : board_t) (cols : list Z) (k : exc (option string))
  : exc (option string) :=
  match cols with
  | [] => k
  | col :: rest =>
      hit ← chain3 (py_getitem2 b 0 col) (py_getitem2 b 1 col) (py_getitem2 b 2 col);
      if hit : bool then w ← py_getitem2 b 0 col; Return (Some w)
      else check_cols b rest k
  end.

Definition check_diagonals (b : board_t) : exc (option string) :=
  hit ← chain3 (py_getitem2 b 0 0) (py_getitem2 b 1 1) (py_getitem2 b 2 2);
  if hit : bool then w ← py_getitem2 b 0 0; Return (Some w)
  else
    hit' ← chain3 (py_getitem2 b 0 2) (py_getitem2 b 1 1) (py_getitem2 b 2 0);
    if hit' : bool then w ← py_getitem2 b 0 2; Return (Some w)
    else Return None.

Definition check_winner (b : board_t) : exc (option string) :=
  check_rows b (check_cols b [0; 1; 2] (check_diagonals b)).

(** ** [is_board_full] (lines 47-53) *)

Fixpoint row_has_empty (row : list string) : bool :=
  match row with
  | [] => false
  | cell :: rest => if String.eqb cell "" then true else row_has_empty rest
  end.

Fixpoint is_board_full (b : board_t) : bool :=
  match b with
  | [] => true
  | row :: rest => if row_has_empty row then false else is_board_full rest
  end.

(** ** [make_move] (lines 55-81) *)

(** [board[row][col] = v]: the row list is fetched and updated in place. *)
Definition py_setitem2 (b : board_t) (i j : Z) (v : string) : exc board_t :=
  row ← py_getitem b i;
  row' ← py_setitem row j v;
  py_setitem b i row'.

(** Lines 60-62: write the mark, append the move record. *)
Definition place_mark (row col : Z) (now : timestamp) : M unit :=
  s ← get;
  b ← lift (py_setitem2 (board s) row col (current_player s));
  modify (set_board b);;
  s ← get;
  modify (set_move_history (move_history s ++ [(row, col, current_player s, now)])).

(** Lines 64-69: drop the oldest move once the history is longer than
    [vanish_after * 2]. *)
Definition handle_vanishing : M unit :=
  s ← get;
  if Z.of_nat (length (move_history s)) >? vanish_after s * 2 then
    popped ← lift (py_pop0 (move_history s));
    modify (set_move_history popped.2);;
    s ← get;
    b ← lift (py_setitem2 (board s) (move_row popped.1) (move_col popped.1) "");
    modify (set_board b)
  else mret ().

(** Truth value of an [Optional[str]]: [None] and [''] are false. *)
Definition truthy (w : option string) : bool :=
  match w with
  | None => false
  | Some x => negb (String.eqb x "")
  end.

(** Lines 71-81: winner, tie, or hand the turn over. *)
Definition settle : M unit :=
  s ← get;
  w ← lift (check_winner (board s));
  if truthy w then
    modify (set_winner w);;
    modify (set_game_over true)
  else if is_board_full (board s) then
    modify (set_game_over true);;
    modify (set_winner (Some "Tie"))
  else
    modify (set_current_player
              (if String.eqb (current_player s) "X" then "O" else "X")).

Definition make_move (row col : Z) (now : timestamp) : M unit :=
  s ← get;
  if game_over s then mret ()
  else
    cell ← lift (py_getitem2 (board s) row col);
    if negb (String.eqb cell "") then mret ()
    else
      place_mark row col now;;
      handle_vanishing;;
      settle.

(** ** Status shown to the player (lines 128-134) *)

Inductive status : Type :=
| InProgress
| Won (w : option string)
| Tied.

Definition game_status (s : session_state) : status :=
  if game_over s then
    if bool_decide (winner s = Some "Tie") then Tied else Won (winner s)
  else InProgress.

(** ** The age of a cell's move in [get_cell_style] (lines 89-94)

    The loop over [enumerate(reversed(move_history))]: the index of the
    first record, counted from the newest, whose row and column are the ones
    asked for; 0 when there is none.  The colour the function derives from
    this age is floating-point arithmetic and is left out. *)

Fixpoint find_age (newest_first : list move) (i : Z) (row col : Z) : Z :=
  match newest_first with
  | [] => 0
  | m :: rest =>
      if (move_row m =? row) && (move_col m =? col) then i
      else find_age rest (i + 1) row col
  end.

Definition move_age (s : session_state) (row col : Z) : Z :=
  find_age (reverse (move_history s)) 0 row col.

(** ** The settings handler (lines 115-118) *)

Definition select_vanish (vanish_turns : Z) : M unit :=
  s ← get;
  if bool_decide (vanish_turns ≠ vanish_after s) then
    modify (set_vanish_after vanish_turns);;
    reset_game
  else mret ().

(** ** The board's buttons (lines 157-172) *)

(** The [disabled] flag of the button of cell [(row, col)]: the cell is
    read first (line 161), then [game_over or cell_value != ''] (line 168). *)
Definition button_disabled (row col : Z) : M bool :=
  s ← get;
  cell_value ← lift (py_getitem2 (board s) row col);
  mret (game_over s || negb (String.eqb cell_value "")).

(** ** The move-history panel (lines 190-200) *)

(** [age = len(move_history) - i], then
    [vanish_in = vanish_after * 2 - age + 1] (lines 195-196). *)
Definition vanish_in (s : session_state) (i : nat) : Z :=
  let age := Z.of_nat (length (move_history s)) - Z.of_nat i in
  vanish_after s * 2 - age + 1.

(** The line written for the record at index [i] (lines 197-200). *)
Definition history_line (s : session_state) (i : nat) (m : move) : string :=
  if vanish_in s i >? 0 then
    "Move " +:+ pretty (Z.of_nat i + 1) +:+ ": Player " +:+ move_player m
    +:+ " → Row " +:+ pretty (move_row m + 1)
    +:+ ", Col " +:+ pretty (move_col m + 1)
    +:+ " (vanishes in " +:+ pretty (vanish_in s i) +:+ " moves)"
  else
    "Move " +:+ pretty (Z.of_nat i + 1) +:+ ": Player " +:+ move_player m
    +:+ " → Row " +:+ pretty (move_row m + 1)
    +:+ ", Col " +:+ pretty (move_col m + 1)
    +:+ " ⚠️ (will vanish next)".

(** What the panel writes; nothing when the history is empty. *)
Definition history_panel (s : session_state) : list string :=
  match move_history s with
  | [] => []
  | _ :: _ =>
      "Recent moves (oldest will vanish first):"
      :: imap (history_line s) (move_history s)
  end.

(** ** Sessions: sequences of calls *)

(** The store an operation leaves behind, whether it returned or raised. *)
Definition exec {A : Type} (m : M A) (s : session_state) : session_state :=
  (m s).2.

(** A click on cell [(row, col)] at clock reading [now]. *)
Definition click : Type := Z * Z * timestamp.

Fixpoint play (cs : list click) (s : session_state) : session_state :=
  match cs with
  | [] => s
  | (row, col, now) :: rest => play rest (exec (make_move row col now) s)
  end.

(** States a session can be in after a new game with limit [v]: any number
    of [make_move] calls, with any arguments, each running to its return or
    to its exception. *)
Inductive reachable (v : Z) : session_state → Prop :=
| reach_new (s0 : session_state) :
    reachable v (exec (new_game v) s0)
| reach_move (s : session_state) (row col : Z) (now : timestamp) :
    reachable v s → reachable v (exec (make_move row col now) s).

(** * Vocabulary of the properties *)

(** ** Boards, cells and positions *)

(** The shape every board of the engine has: three rows of three cells. *)
Definition wf_board (b : board_t) : Prop :=
  length b = 3%nat ∧ Forall (λ row, length row = 3%nat) b.

(** An index Python accepts on a list of three. *)
Definition valid (i : Z) : Prop := -3 ≤ i < 3.

(** The position such an index denotes. *)
Definition norm (i : Z) : nat := Z.to_nat (if i <? 0 then i + 3 else i).

(** The content of cell [(i, j)], and the board with that cell rewritten. *)
Definition cell (b : board_t) (i j : nat) : string :=
  default "" (b !! i ≫= (.!! j)).

Definition set_cell (b : board_t) (i j : nat) (v : string) : board_t :=
  alter (λ row, <[j := v]> row) i b.

Definition pos : Type := nat * nat.

Definition at_pos (b : board_t) (p : pos) : string := cell b p.1 p.2.

(** The cell a move record addresses. *)
Definition move_pos (m : move) : pos := (norm (move_row m), norm (move_col m)).

Definition all_pos : list pos :=
  [(0, 0); (0, 1); (0, 2); (1, 0); (1, 1); (1, 2); (2, 0); (2, 1); (2, 2)]%nat.

Definition is_mark (p : string) : Prop := p = "X" ∨ p = "O".

#[global] Instance valid_dec (i : Z) : Decision (valid i).
Proof. unfold valid. apply _. Defined.

Definition valid_move (m : move) : Prop :=
  valid (move_row m) ∧ valid (move_col m).

(** The number of marks on the board, and where they are. *)
Definition count_nonempty (b : board_t) : nat :=
  length (filter (λ c : string, c ≠ "") (concat b)).

Definition occupied (b : board_t) : list pos :=
  filter (λ p : pos, at_pos b p ≠ "") all_pos.

(** ** The eight lines *)

Definition line : Type := pos * pos * pos.

(** row0, row1, row2, col0, col1, col2, main diagonal, anti-diagonal *)
Definition winning_lines : list line :=
  [((0, 0), (0, 1), (0, 2)); ((1, 0), (1, 1), (1, 2)); ((2, 0), (2, 1), (2, 2));
   ((0, 0), (1, 0), (2, 0)); ((0, 1), (1, 1), (2, 1)); ((0, 2), (1, 2), (2, 2));
   ((0, 0), (1, 1), (2, 2)); ((0, 2), (1, 1), (2, 0))]%nat.

(** Three cells that are non-empty and identical. *)
Definition wins3 (a b c : string) : bool :=
  negb (String.eqb a "") && negb (String.eqb b "") && negb (String.eqb c "")
  && String.eqb a b && String.eqb b c.

Definition line_wins (b : board_t) (l : line) : bool :=
  wins3 (at_pos b l.1.1) (at_pos b l.1.2) (at_pos b l.2).

(** The mark on the first winning line of [ls], if any. *)
Fixpoint first_win (b : board_t) (ls : list line) : option string :=
  match ls with
  | [] => None
  | l :: rest => if line_wins b l then Some (at_pos b l.1.1) else first_win b rest
  end.

(** ** The phases of a legal move, as functions on the store

    What [place_mark], [handle_vanishing] and [settle] leave behind when
    they do not raise. *)

Definition placed (row col : Z) (now : timestamp) (s : session_state)
  : session_state :=
  set_move_history (move_history s ++ [(row, col, current_player s, now)])
    (set_board (set_cell (board s) (norm row) (norm col) (current_player s)) s).

Definition vanished (s : session_state) : session_state :=
  if Z.of_nat (length (move_history s)) >? vanish_after s * 2 then
    match move_history s with
    | [] => s
    | old :: rest =>
        set_board (set_cell (board s) (move_pos old).1 (move_pos old).2 "")
          (set_move_history rest s)
    end
  else s.

Definition settled (s : session_state) : session_state :=
  match first_win (board s) winning_lines with
  | Some w => set_game_over true (set_winner (Some w) s)
  | None =>
      if is_board_full (board s) then
        set_winner (Some "Tie") (set_game_over true s)
      else
        set_current_player
          (if String.eqb (current_player s) "X" then "O" else "X") s
  end.

(** ** Invariants *)

(** The board and the history describe the same marks: every record
    addresses a cell holding its player's mark, no two records address the
    same cell, and every occupied cell is addressed by a record. *)
Record board_hist_ok (b : board_t) (h : list move) : Prop := BoardHistOk {
  bh_wf : wf_board b;
  bh_valid : Forall valid_move h;
  bh_marks : ∀ m, m ∈ h →
    at_pos b (move_pos m) = move_player m ∧ is_mark (move_player m);
  bh_nodup : NoDup (move_pos <$> h);
  bh_cover : ∀ i j, (i < 3)%nat → (j < 3)%nat →
    cell b i j ≠ "" → (i, j) ∈ move_pos <$> h
}.

(** The invariant of the states a session reaches. *)
Record inv (s : session_state) : Prop := Inv {
  inv_bh : board_hist_ok (board s) (move_history s);
  inv_player : is_mark (current_player s);
  inv_len : Z.of_nat (length (move_history s)) ≤ Z.max 0 (vanish_after s * 2);
  inv_over : game_over s = true →
    winner s = Some "X" ∨ winner s = Some "O" ∨
    (winner s = Some "Tie" ∧ is_board_full (board s) = true)
}.

(** A call is legal when the game is running and the addressed cell reads
    as empty: the guard of line 57 lets it through. *)
Definition legal (s : session_state) (row col : Z) : Prop :=
  game_over s = false ∧ py_getitem2 (board s) row col = Return "".

#[global] Instance exn_eq_dec : EqDecision exn.
Proof. solve_decision. Defined.
#[global] Instance exc_eq_dec {A : Type} `{EqDecision A} : EqDecision (exc A).
Proof. solve_decision. Defined.
#[global] Instance legal_dec (s : session_state) (row col : Z) :
  Decision (legal s row col).
Proof. unfold legal. apply _. Defined.

(** ** Sessions through the page *)

(** What the page lets a player do: pick a limit from the select box
    (line 115), press "New Game" (lines 121-122), or press the button of a
    cell, which exists for [row] and [col] in [range(3)] and fires only
    when it is not disabled (lines 157-171). *)
Inductive ui_reachable : session_state → Prop :=
| ui_start : ui_reachable initial_session
| ui_select (s : session_state) (vanish_turns : Z) :
    vanish_turns ∈ [2; 3; 4; 5] → ui_reachable s →
    ui_reachable (exec (select_vanish vanish_turns) s)
| ui_new_game (s : session_state) :
    ui_reachable s → ui_reachable (exec reset_game s)
| ui_cell (s : session_state) (row col : Z) (now : timestamp) :
    ui_reachable s → row ∈ [0; 1; 2] → col ∈ [0; 1; 2] →
    button_disabled row col s = (Return false, s) →
    ui_reachable (exec (make_move row col now) s).

(** The number of cells holding the mark [p]. *)
Definition count_mark (p : string) (b : board_t) : nat :=
  length (filter (λ c : string, c = p) (concat b)).

(** Neighbouring records belong to different players. *)
Definition alternating (h : list move) : Prop :=
  ∀ (i : nat) (m m' : move),
    h !! i = Some m → h !! S i = Some m' → move_player m ≠ move_player m'.

(** ** Worked games *)

(** Limit 3: X takes the top row with the fifth move. *)
Definition top_row_clicks : list click :=
  [(0, 0, 1%Q); (1, 1, 2%Q); (0, 1, 3%Q); (1, 0, 4%Q)].

Definition top_row_game : session_state :=
  play top_row_clicks (exec (new_game 3) initial_session).

(** Limit 2: four moves on the board, the fifth evicts the first. *)
Definition evicting_game : session_state :=
  play top_row_clicks (exec (new_game 2) initial_session).

(** Nine moves that never line up three marks. *)
Definition draw_clicks : list click :=
  [(0, 0, 1%Q); (1, 1, 2%Q); (0, 2, 3%Q); (0, 1, 4%Q); (1, 0, 5%Q);
   (1, 2, 6%Q); (2, 1, 7%Q); (2, 0, 8%Q); (2, 2, 9%Q)].

(** Limit 5: the first eight of them. *)
Definition draw_game : session_state :=
  play (take 8 draw_clicks) (exec (new_game 5) initial_session).

(** * Reasoning layer *)

(** ** Boards of the right shape and their cells *)

Lemma wf_board_cells (b : board_t) :
  wf_board b →
  ∃ a0 a1 a2 a3 a4 a5 a6 a7 a8,
    b = [[a0; a1; a2]; [a3; a4; a5]; [a6; a7; a8]].
Proof.
  intros [Hlen Hrows].
  destruct b as [|r0 [|r1 [|r2 [|]]]]; simpl in Hlen; try lia.
  apply Forall_cons in Hrows as [H0 Hrows].
  apply Forall_cons in Hrows as [H1 Hrows].
  apply Forall_cons in Hrows as [H2 _].
  destruct r0 as [|a0 [|a1 [|a2 [|]]]]; simpl in H0; try lia.
  destruct r1 as [|a3 [|a4 [|a5 [|]]]]; simpl in H1; try lia.
  destruct r2 as [|a6 [|a7 [|a8 [|]]]]; simpl in H2; try lia.
  by exists a0, a1, a2, a3, a4, a5, a6, a7, a8.
Qed.

Lemma wf_board_grid (a0 a1 a2 a3 a4 a5 a6 a7 a8 : string) :
  wf_board [[a0; a1; a2]; [a3; a4; a5]; [a6; a7; a8]].
Proof. split; [done | repeat constructor]. Qed.

Lemma wf_empty_board : wf_board empty_board.
Proof. apply wf_board_grid. Qed.

Lemma norm_cases (i : Z) :
  valid i → norm i = 0%nat ∨ norm i = 1%nat ∨ norm i = 2%nat.
Proof. unfold valid, norm. intros H. destruct (Z.ltb_spec i 0); lia. Qed.

Lemma norm_lt (i : Z) : valid i → (norm i < 3)%nat.
Proof. intros H. destruct (norm_cases i H) as [-> | [-> | ->]]; lia. Qed.

Lemma norm_id (i : Z) : 0 ≤ i → norm i = Z.to_nat i.
Proof. unfold norm. intros H. by destruct (Z.ltb_spec i 0); [lia|]. Qed.

Lemma py_index_valid (i : Z) : valid i → py_index 3 i = Return (norm i).
Proof.
  unfold valid, py_index, norm. intros H. change (Z.of_nat 3) with 3.
  destruct (Z.ltb_spec i 0); simpl.
  - destruct (Z.ltb_spec (i + 3) 0); [lia|].
    destruct (Z.leb_spec 3 (i + 3)); [lia|done].
  - destruct (Z.ltb_spec i 0); [lia|].
    destruct (Z.leb_spec 3 i); [lia|done].
Qed.

Lemma py_index_invalid (i : Z) : ¬ valid i → py_index 3 i = Raise IndexError.
Proof.
  unfold valid, py_index. intros H. change (Z.of_nat 3) with 3.
  destruct (Z.ltb_spec i 0); simpl.
  - destruct (Z.ltb_spec (i + 3) 0); [done|].
    destruct (Z.leb_spec 3 (i + 3)); [done|lia].
  - destruct (Z.ltb_spec i 0); [lia|].
    destruct (Z.leb_spec 3 i); [done|lia].
Qed.

Ltac grid b H :=
  let a0 := fresh "a" in let a1 := fresh "a" in let a2 := fresh "a" in
  let a3 := fresh "a" in let a4 := fresh "a" in let a5 := fresh "a" in
  let a6 := fresh "a" in let a7 := fresh "a" in let a8 := fresh "a" in
  destruct (wf_board_cells b H)
    as (a0 & a1 & a2 & a3 & a4 & a5 & a6 & a7 & a8 & ->).

Ltac norm3 i H :=
  let E := fresh "E" in
  destruct (norm_cases i H) as [E | [E | E]]; rewrite ?E.

Lemma py_getitem_row (b : board_t) (i : Z) :
  length b = 3%nat → valid i →
  ∃ row, b !! norm i = Some row ∧ py_getitem b i = Return row.
Proof.
  intros Hlen Hi. unfold py_getitem. rewrite Hlen, (py_index_valid i Hi). simpl.
  destruct (lookup_lt_is_Some_2 b (norm i)) as [row Hrow].
  { rewrite Hlen. by apply norm_lt. }
  exists row. by rewrite Hrow.
Qed.

Lemma py_getitem_invalid {A : Type} (l : list A) (i : Z) :
  length l = 3%nat → ¬ valid i → py_getitem l i = Raise IndexError.
Proof.
  intros Hlen Hi. unfold py_getitem. by rewrite Hlen, (py_index_invalid i Hi).
Qed.

Lemma py_getitem2_valid (b : board_t) (i j : Z) :
  wf_board b → valid i → valid j →
  py_getitem2 b i j = Return (cell b (norm i) (norm j)).
Proof.
  intros Hwf Hi Hj. grid b Hwf.
  unfold py_getitem2, py_getitem, cell. simpl length.
  rewrite (py_index_valid i Hi). simpl.
  norm3 i Hi; simpl; rewrite (py_index_valid j Hj); simpl;
    norm3 j Hj; reflexivity.
Qed.

Lemma py_getitem2_invalid (b : board_t) (i j : Z) :
  wf_board b → ¬ (valid i ∧ valid j) → py_getitem2 b i j = Raise IndexError.
Proof.
  intros Hwf Hij. unfold py_getitem2.
  destruct (decide (valid i)) as [Hi|Hi].
  - destruct (py_getitem_row b i (proj1 Hwf) Hi) as (row & Hrow & ->). simpl.
    apply py_getitem_invalid; [|tauto].
    destruct Hwf as [_ Hrows].
    rewrite Forall_lookup in Hrows. by apply (Hrows _ _ Hrow).
  - by rewrite (py_getitem_invalid b i (proj1 Hwf) Hi).
Qed.

Lemma py_setitem2_valid (b : board_t) (i j : Z) (v : string) :
  wf_board b → valid i → valid j →
  py_setitem2 b i j v = Return (set_cell b (norm i) (norm j) v).
Proof.
  intros Hwf Hi Hj. grid b Hwf.
  unfold py_setitem2, py_getitem, py_setitem, set_cell. simpl length.
  rewrite (py_index_valid i Hi). simpl.
  norm3 i Hi; simpl; rewrite (py_index_valid j Hj); simpl;
    norm3 j Hj; reflexivity.
Qed.

Lemma wf_set_cell (b : board_t) (i j : nat) (v : string) :
  wf_board b → wf_board (set_cell b i j v).
Proof.
  intros [Hlen Hrows]. unfold set_cell. split.
  - by rewrite length_alter.
  - rewrite Forall_lookup in Hrows. apply Forall_lookup. intros k row Hk.
    destruct (decide (i = k)) as [->|Hne].
    + rewrite list_lookup_alter_eq in Hk.
      destruct (b !! k) as [row0|] eqn:E; simplify_eq/=.
      rewrite length_insert. by apply (Hrows k).
    + rewrite list_lookup_alter_ne in Hk by done. by apply (Hrows k).
Qed.

Lemma cell_set_cell_eq (b : board_t) (i j : nat) (v : string) :
  wf_board b → (i < 3)%nat → (j < 3)%nat → cell (set_cell b i j v) i j = v.
Proof.
  intros Hwf Hi Hj. grid b Hwf.
  destruct i as [|[|[|]]]; try lia; destruct j as [|[|[|]]]; try lia; reflexivity.
Qed.

Lemma cell_set_cell_ne (b : board_t) (i j i' j' : nat) (v : string) :
  (i, j) ≠ (i', j') → cell (set_cell b i j v) i' j' = cell b i' j'.
Proof.
  intros Hne. unfold cell, set_cell.
  destruct (decide (i = i')) as [->|Hi].
  - rewrite list_lookup_alter_eq. destruct (b !! i') as [row|]; simpl; [|done].
    rewrite list_lookup_insert_ne; [done|congruence].
  - by rewrite list_lookup_alter_ne.
Qed.

(** ** The winner check against the eight lines *)

Lemma wins3_spec (a b c : string) :
  wins3 a b c = true ↔ a ≠ "" ∧ b ≠ "" ∧ c ≠ "" ∧ a = b ∧ b = c.
Proof.
  unfold wins3.
  rewrite !andb_true_iff, !negb_true_iff, !String.eqb_eq, !String.eqb_neq.
  tauto.
Qed.

Lemma chain3_Return (a b c : string) :
  chain3 (Return a) (Return b) (Return c) = Return (wins3 a b c).
Proof.
  unfold chain3, wins3. simpl.
  destruct (String.eqb_spec a b) as [->|Hab]; simpl.
  - destruct (String.eqb_spec b c) as [->|Hbc]; simpl.
    + by destruct (String.eqb_spec c "").
    + by rewrite !andb_false_r.
  - by rewrite andb_false_r.
Qed.

Lemma check_winner_grid (a0 a1 a2 a3 a4 a5 a6 a7 a8 : string) :
  let b := [[a0; a1; a2]; [a3; a4; a5]; [a6; a7; a8]] in
  check_winner b = Return (first_win b winning_lines).
Proof.
  intros b. subst b. unfold check_winner, check_rows, check_cols, check_diagonals.
  unfold py_getitem2, py_getitem, line_wins, first_win, winning_lines, at_pos, cell.
  simpl. rewrite !chain3_Return. simpl.
  unfold line_wins, at_pos, cell. simpl.
  repeat match goal with
         | |- context [wins3 ?x ?y ?z] => destruct (wins3 x y z); simpl; [done|]
         end.
  done.
Qed.

Lemma check_winner_first_win (b : board_t) :
  wf_board b → check_winner b = Return (first_win b winning_lines).
Proof. intros Hwf. grid b Hwf. apply check_winner_grid. Qed.

Lemma first_win_Some (b : board_t) (ls : list line) (w : string) :
  first_win b ls = Some w →
  ∃ l, l ∈ ls ∧ line_wins b l = true ∧ at_pos b l.1.1 = w.
Proof.
  induction ls as [|l ls IH]; simpl; [done|].
  destruct (line_wins b l) eqn:E.
  - intros [= <-]. exists l. split; [left|done].
  - intros H. destruct (IH H) as (l' & Hin & Hw). exists l'. split; [by right|done].
Qed.

Lemma first_win_nonempty (b : board_t) (ls : list line) (w : string) :
  first_win b ls = Some w → w ≠ "".
Proof.
  intros (l & _ & Hw & <-)%first_win_Some.
  apply wins3_spec in Hw. tauto.
Qed.

Lemma first_win_truthy (b : board_t) (ls : list line) (w : string) :
  first_win b ls = Some w → truthy (Some w) = true.
Proof.
  intros E%first_win_nonempty. simpl. by destruct (String.eqb_spec w "").
Qed.

(** ** The phases of a legal move, as functions on the store *)

Lemma place_mark_run (row col : Z) (now : timestamp) (s : session_state) :
  wf_board (board s) → valid row → valid col →
  place_mark row col now s = (Return (), placed row col now s).
Proof.
  intros Hwf Hr Hc. unfold place_mark, placed, mbind, M_bind, get, lift, modify.
  by rewrite (py_setitem2_valid _ _ _ _ Hwf Hr Hc).
Qed.

Lemma handle_vanishing_run (s : session_state) :
  wf_board (board s) → Forall valid_move (move_history s) →
  move_history s ≠ [] →
  handle_vanishing s = (Return (), vanished s).
Proof.
  intros Hwf Hval Hne. unfold handle_vanishing, vanished, mbind, M_bind, get, lift, modify.
  destruct (Z.of_nat (length (move_history s)) >? vanish_after s * 2) eqn:E;
    [|done].
  destruct (move_history s) as [|old rest] eqn:Hh; [done|]. simpl.
  apply Forall_cons in Hval as [[Hr Hc] _].
  by rewrite (py_setitem2_valid _ _ _ _ Hwf Hr Hc).
Qed.

Lemma settle_run (s : session_state) :
  wf_board (board s) → settle s = (Return (), settled s).
Proof.
  intros Hwf. unfold settle, settled, mbind, M_bind, get, lift, modify.
  rewrite (check_winner_first_win _ Hwf).
  destruct (first_win (board s) winning_lines) as [w|] eqn:E.
  - by rewrite (first_win_truthy _ _ _ E).
  - simpl. by destruct (is_board_full (board s)).
Qed.

(** ** What a call to [make_move] does, case by case *)

Lemma make_move_over (row col : Z) (now : timestamp) (s : session_state) :
  game_over s = true → make_move row col now s = (Return (), s).
Proof.
  intros H. unfold make_move, mbind, M_bind, get. by rewrite H.
Qed.

Lemma make_move_raises (row col : Z) (now : timestamp) (s : session_state) :
  game_over s = false → wf_board (board s) → ¬ (valid row ∧ valid col) →
  make_move row col now s = (Raise IndexError, s).
Proof.
  intros Hgo Hwf Hrc. unfold make_move, mbind, M_bind, get, lift.
  by rewrite Hgo, (py_getitem2_invalid _ _ _ Hwf Hrc).
Qed.

Lemma make_move_occupied (row col : Z) (now : timestamp) (s : session_state)
    (x : string) :
  game_over s = false → py_getitem2 (board s) row col = Return x → x ≠ "" →
  make_move row col now s = (Return (), s).
Proof.
  intros Hgo Hget Hx. unfold make_move, mbind, M_bind, get, lift.
  rewrite Hgo, Hget. by destruct (String.eqb_spec x "").
Qed.

Lemma py_getitem2_Return (b : board_t) (i j : Z) (x : string) :
  wf_board b → py_getitem2 b i j = Return x →
  valid i ∧ valid j ∧ cell b (norm i) (norm j) = x.
Proof.
  intros Hwf Hget.
  destruct (decide (valid i ∧ valid j)) as [[Hi Hj]|Hn].
  - rewrite (py_getitem2_valid _ _ _ Hwf Hi Hj) in Hget. by simplify_eq.
  - by rewrite (py_getitem2_invalid _ _ _ Hwf Hn) in Hget.
Qed.

Lemma make_move_legal (row col : Z) (now : timestamp) (s : session_state) :
  wf_board (board s) → Forall valid_move (move_history s) →
  game_over s = false → py_getitem2 (board s) row col = Return "" →
  make_move row col now s
  = (Return (), settled (vanished (placed row col now s))).
Proof.
  intros Hwf Hval Hgo Hget.
  destruct (py_getitem2_Return _ _ _ _ Hwf Hget) as (Hr & Hc & _).
  unfold make_move, mbind at 1 2 3 4, M_bind at 1 2 3 4, get, lift.
  rewrite Hgo, Hget. simpl.
  rewrite (place_mark_run _ _ _ _ Hwf Hr Hc).
  assert (wf_board (board (placed row col now s))) as Hwf1
    by apply wf_set_cell, Hwf.
  rewrite handle_vanishing_run; [| done | |].
  - apply settle_run. unfold vanished.
    destruct (_ >? _); [|done].
    destruct (move_history (placed row col now s)); [exact Hwf1|].
    simpl. by apply wf_set_cell.
  - simpl. apply Forall_app. split; [done|]. by apply Forall_singleton.
  - simpl. by destruct (move_history s).
Qed.

(** ** The board and the history describe the same marks *)

Lemma is_mark_nonempty (p : string) : is_mark p → p ≠ "".
Proof. by intros [-> | ->]. Qed.

Lemma cell_empty_board (i j : nat) : cell empty_board i j = "".
Proof. by destruct i as [|[|[|]]], j as [|[|[|]]]. Qed.

Lemma board_hist_ok_empty : board_hist_ok empty_board [].
Proof.
  split.
  - apply wf_empty_board.
  - constructor.
  - intros m H. by apply elem_of_nil in H.
  - constructor.
  - intros i j _ _ H. by rewrite cell_empty_board in H.
Qed.

Lemma place_ok (b : board_t) (h : list move) (row col : Z) (p : string)
    (now : timestamp) :
  board_hist_ok b h → valid row → valid col →
  cell b (norm row) (norm col) = "" → is_mark p →
  board_hist_ok (set_cell b (norm row) (norm col) p) (h ++ [(row, col, p, now)]).
Proof.
  intros [Hwf Hval Hmarks Hnd Hcov] Hr Hc Hempty Hp.
  assert (∀ m, m ∈ h → (norm row, norm col) ≠ move_pos m) as Hfresh.
  { intros m Hm Heq. destruct (Hmarks m Hm) as [Hcell Hmk].
    unfold at_pos in Hcell. rewrite <- Heq in Hcell. simpl in Hcell.
    apply is_mark_nonempty in Hmk. congruence. }
  split.
  - by apply wf_set_cell.
  - apply Forall_app. split; [done|]. by apply Forall_singleton.
  - intros m [Hm | ->%list_elem_of_singleton]%elem_of_app.
    + unfold at_pos. rewrite cell_set_cell_ne; [by apply Hmarks|].
      rewrite <- surjective_pairing. by apply Hfresh.
    + split; [|done]. unfold at_pos, move_pos, move_row, move_col. simpl.
      apply cell_set_cell_eq; [done | by apply norm_lt..].
  - rewrite fmap_app. apply NoDup_app. split_and!; [done | | apply NoDup_singleton].
    intros q Hq ->%list_elem_of_singleton.
    apply list_elem_of_fmap in Hq as (m & Heq & Hm).
    by apply (Hfresh m Hm).
  - intros i j Hi Hj Hcell. rewrite fmap_app. apply elem_of_app.
    destruct (decide ((norm row, norm col) = (i, j))) as [<-|Hne].
    + right. by apply list_elem_of_singleton.
    + left. rewrite cell_set_cell_ne in Hcell by done. by apply Hcov.
Qed.

Lemma evict_ok (b : board_t) (old : move) (h : list move) :
  board_hist_ok b (old :: h) →
  board_hist_ok (set_cell b (move_pos old).1 (move_pos old).2 "") h.
Proof.
  intros [Hwf Hval Hmarks Hnd Hcov].
  rewrite fmap_cons in Hnd. apply NoDup_cons in Hnd as [Hnotin Hnd].
  apply Forall_cons in Hval as [[Hr Hc] Hval].
  split.
  - by apply wf_set_cell.
  - done.
  - intros m Hm. unfold at_pos. rewrite cell_set_cell_ne.
    + apply Hmarks. by right.
    + rewrite <- !surjective_pairing. intros Heq. apply Hnotin.
      rewrite Heq. apply list_elem_of_fmap. eauto.
  - done.
  - intros i j Hi Hj Hcell.
    destruct (decide (move_pos old = (i, j))) as [Heq|Hne].
    + rewrite Heq in Hcell. simpl in Hcell.
      by rewrite cell_set_cell_eq in Hcell.
    + rewrite cell_set_cell_ne in Hcell by (by rewrite <- surjective_pairing).
      specialize (Hcov i j Hi Hj Hcell). rewrite fmap_cons in Hcov.
      by apply elem_of_cons in Hcov as [?|?].
Qed.

Lemma occupied_is_mark (b : board_t) (h : list move) (i j : nat) :
  board_hist_ok b h → (i < 3)%nat → (j < 3)%nat →
  cell b i j ≠ "" → is_mark (cell b i j).
Proof.
  intros Hok Hi Hj Hcell.
  pose proof (bh_cover _ _ Hok i j Hi Hj Hcell) as Hin.
  apply list_elem_of_fmap in Hin as (m & Heq & Hm).
  destruct (bh_marks _ _ Hok m Hm) as [Hat Hmk].
  unfold at_pos in Hat. rewrite <- Heq in Hat. simpl in Hat. by rewrite Hat.
Qed.

Lemma winning_lines_in_range (l : line) :
  l ∈ winning_lines → (l.1.1.1 < 3)%nat ∧ (l.1.1.2 < 3)%nat.
Proof.
  unfold winning_lines. intros H.
  repeat (apply elem_of_cons in H as [-> | H]; [simpl; lia|]).
  by apply elem_of_nil in H.
Qed.

Lemma first_win_mark (b : board_t) (h : list move) (w : string) :
  board_hist_ok b h → first_win b winning_lines = Some w → is_mark w.
Proof.
  intros Hok Hw. pose proof (first_win_nonempty _ _ _ Hw) as Hne.
  apply first_win_Some in Hw as (l & Hin & _ & <-).
  destruct (winning_lines_in_range l Hin) as [Hi Hj].
  by apply (occupied_is_mark b h).
Qed.

(** ** The invariant of reachable states *)

Lemma exec_new_game (v : Z) (s0 : session_state) :
  exec (new_game v) s0 = SessionState empty_board [] "X" false None v.
Proof. reflexivity. Qed.

Lemma inv_new_game (v : Z) (s0 : session_state) : inv (exec (new_game v) s0).
Proof.
  rewrite exec_new_game. split; simpl.
  - apply board_hist_ok_empty.
  - by left.
  - lia.
  - done.
Qed.

Lemma vanished_bh (s : session_state) :
  board_hist_ok (board s) (move_history s) →
  board_hist_ok (board (vanished s)) (move_history (vanished s)).
Proof.
  intros Hok. unfold vanished.
  destruct (_ >? _); [|done].
  destruct (move_history s) as [|old rest] eqn:E; [by rewrite E|].
  simpl. by apply evict_ok.
Qed.

Lemma vanished_length (s : session_state) :
  Z.of_nat (length (move_history s)) ≤ Z.max 0 (vanish_after s * 2) + 1 →
  move_history s ≠ [] →
  Z.of_nat (length (move_history (vanished s)))
  ≤ Z.max 0 (vanish_after (vanished s) * 2).
Proof.
  intros Hlen Hne. unfold vanished.
  destruct (Z.gtb_spec (Z.of_nat (length (move_history s))) (vanish_after s * 2)).
  - destruct (move_history s) as [|old rest]; [done|]. simpl in *. lia.
  - lia.
Qed.

Lemma vanished_other (s : session_state) :
  current_player (vanished s) = current_player s ∧
  game_over (vanished s) = game_over s ∧
  winner (vanished s) = winner s ∧
  vanish_after (vanished s) = vanish_after s.
Proof.
  unfold vanished. destruct (_ >? _); [|done].
  by destruct (move_history s).
Qed.

Lemma settled_keeps (s : session_state) :
  board (settled s) = board s ∧
  move_history (settled s) = move_history s ∧
  vanish_after (settled s) = vanish_after s.
Proof.
  unfold settled. destruct (first_win _ _); [done|].
  by destruct (is_board_full _).
Qed.

Lemma inv_settled (s : session_state) :
  board_hist_ok (board s) (move_history s) →
  is_mark (current_player s) →
  Z.of_nat (length (move_history s)) ≤ Z.max 0 (vanish_after s * 2) →
  game_over s = false →
  inv (settled s).
Proof.
  intros Hok Hp Hlen Hgo.
  destruct (settled_keeps s) as (Hb & Hh & Hv).
  split; rewrite ?Hb, ?Hh, ?Hv; try done.
  - unfold settled. destruct (first_win _ _); [done|].
    destruct (is_board_full _); [done|]. simpl.
    destruct Hp as [-> | ->]; simpl; [by right | by left].
  - unfold settled.
    destruct (first_win (board s) winning_lines) as [w|] eqn:E; simpl.
    + intros _. destruct (first_win_mark _ _ _ Hok E) as [-> | ->]; auto.
    + destruct (is_board_full (board s)) eqn:F; simpl; [auto|].
      by rewrite Hgo.
Qed.

Lemma placed_bh (row col : Z) (now : timestamp) (s : session_state) :
  inv s → legal s row col →
  board_hist_ok (board (placed row col now s))
    (move_history (placed row col now s)).
Proof.
  intros Hinv [_ Hget].
  destruct (py_getitem2_Return _ _ _ _ (bh_wf _ _ (inv_bh _ Hinv)) Hget)
    as (Hr & Hc & Hcell).
  simpl. apply place_ok; [apply Hinv | done.. | apply Hinv].
Qed.

Lemma inv_step (row col : Z) (now : timestamp) (s : session_state) :
  inv s → legal s row col →
  inv (settled (vanished (placed row col now s))).
Proof.
  intros Hinv Hlegal.
  pose proof (placed_bh row col now s Hinv Hlegal) as Hbh.
  destruct (vanished_other (placed row col now s)) as (Hp & Hgo & _ & _).
  apply inv_settled.
  - by apply vanished_bh.
  - rewrite Hp. apply Hinv.
  - apply vanished_length.
    + simpl. rewrite length_app. simpl. pose proof (inv_len _ Hinv). lia.
    + simpl. by destruct (move_history s).
  - rewrite Hgo. apply Hlegal.
Qed.

Lemma make_move_legal_inv (row col : Z) (now : timestamp) (s : session_state) :
  inv s → legal s row col →
  make_move row col now s
  = (Return (), settled (vanished (placed row col now s))).
Proof.
  intros Hinv [Hgo Hget].
  apply make_move_legal; [apply Hinv | apply Hinv | done..].
Qed.

Lemma make_move_illegal (row col : Z) (now : timestamp) (s : session_state) :
  inv s → ¬ legal s row col → exec (make_move row col now) s = s.
Proof.
  intros Hinv Hn. unfold exec.
  destruct (game_over s) eqn:Hgo; [by rewrite make_move_over|].
  destruct (py_getitem2 (board s) row col) as [x|e] eqn:Hget.
  - rewrite (make_move_occupied _ _ _ _ x); [done..|].
    intros ->. apply Hn. by split.
  - unfold make_move, mbind, M_bind, get, lift. by rewrite Hgo, Hget.
Qed.

Lemma inv_exec_make_move (row col : Z) (now : timestamp) (s : session_state) :
  inv s → inv (exec (make_move row col now) s).
Proof.
  intros Hinv. destruct (decide (legal s row col)) as [Hl|Hn].
  - unfold exec. rewrite make_move_legal_inv by done. by apply inv_step.
  - by rewrite make_move_illegal.
Qed.

Lemma vanish_after_exec_make_move (row col : Z) (now : timestamp)
    (s : session_state) :
  inv s → vanish_after (exec (make_move row col now) s) = vanish_after s.
Proof.
  intros Hinv. destruct (decide (legal s row col)) as [Hl|Hn].
  - unfold exec. rewrite make_move_legal_inv by done. simpl.
    destruct (settled_keeps (vanished (placed row col now s))) as (_ & _ & ->).
    by destruct (vanished_other (placed row col now s)) as (_ & _ & _ & ->).
  - by rewrite make_move_illegal.
Qed.

Lemma reachable_inv (v : Z) (s : session_state) :
  reachable v s → inv s ∧ vanish_after s = v.
Proof.
  induction 1 as [s0 | s row col now Hreach [IHinv IHv]].
  - split; [apply inv_new_game | done].
  - split; [by apply inv_exec_make_move|].
    by rewrite vanish_after_exec_make_move.
Qed.

Lemma reachable_play (v : Z) (cs : list click) (s : session_state) :
  reachable v s → reachable v (play cs s).
Proof.
  revert s. induction cs as [|[[row col] now] cs IH]; intros s Hs; simpl; [done|].
  apply IH. by constructor.
Qed.

(** ** Counting the marks on the board *)

Lemma length_filter_fmap {A B : Type} (f : A → B) (P : B → Prop)
    `{∀ x, Decision (P x)} (l : list A) :
  length (filter P (f <$> l)) = length (filter (λ x, P (f x)) l).
Proof.
  induction l as [|x l IH]; [done|].
  rewrite fmap_cons, !filter_cons. destruct (decide (P (f x))); simpl; by rewrite IH.
Qed.

Lemma count_nonempty_occupied (b : board_t) :
  wf_board b → count_nonempty b = length (occupied b).
Proof.
  intros Hwf.
  destruct (wf_board_cells b Hwf)
    as (a & a0 & a1 & a2 & a3 & a4 & a5 & a6 & a7 & ->).
  unfold count_nonempty, occupied.
  exact (length_filter_fmap
           (at_pos [[a; a0; a1]; [a2; a3; a4]; [a5; a6; a7]])
           (λ c : string, c ≠ "") all_pos).
Qed.

Lemma all_pos_range (p : pos) : p ∈ all_pos → (p.1 < 3)%nat ∧ (p.2 < 3)%nat.
Proof.
  unfold all_pos. intros H.
  repeat (apply elem_of_cons in H as [-> | H]; [simpl; lia|]).
  by apply elem_of_nil in H.
Qed.

Lemma NoDup_all_pos : NoDup all_pos.
Proof. compute_done. Qed.

Lemma count_nonempty_history (b : board_t) (h : list move) :
  board_hist_ok b h → (count_nonempty b ≤ length h)%nat.
Proof.
  intros Hok. rewrite (count_nonempty_occupied _ (bh_wf _ _ Hok)).
  rewrite <- (length_fmap move_pos h).
  apply submseteq_length, NoDup_submseteq.
  - apply NoDup_filter, NoDup_all_pos.
  - intros [i j] [Hcell Hin]%list_elem_of_filter.
    destruct (all_pos_range _ Hin). by apply (bh_cover _ _ Hok).
Qed.

Lemma row_has_empty_false (row : list string) :
  row_has_empty row = false ↔ Forall (λ c, c ≠ "") row.
Proof.
  induction row as [|c row IH]; simpl.
  - split; [constructor | done].
  - destruct (String.eqb_spec c "") as [->|Hc].
    + split; [done|]. by intros [? _]%Forall_cons.
    + rewrite IH. split; [by constructor | by intros [_ ?]%Forall_cons].
Qed.

Lemma is_board_full_spec (b : board_t) :
  is_board_full b = true ↔ Forall (Forall (λ c, c ≠ "")) b.
Proof.
  induction b as [|row b IH]; simpl.
  - split; [constructor | done].
  - destruct (row_has_empty row) eqn:E.
    + split; [done|]. intros [Hrow _]%Forall_cons.
      apply row_has_empty_false in Hrow. congruence.
    + apply row_has_empty_false in E. rewrite IH.
      split; [by constructor | by intros [_ ?]%Forall_cons].
Qed.

Lemma is_board_full_count (b : board_t) :
  wf_board b → is_board_full b = true → count_nonempty b = 9%nat.
Proof.
  intros Hwf Hfull. apply is_board_full_spec in Hfull.
  grid b Hwf. unfold count_nonempty.
  repeat match goal with
         | H : Forall _ (_ :: _) |- _ => apply Forall_cons in H as [? H]
         end.
  simpl. rewrite !filter_cons_True by done. done.
Qed.

Lemma count_nonempty_eq_history (b : board_t) (h : list move) :
  board_hist_ok b h → count_nonempty b = length h.
Proof.
  intros Hok. apply Nat.le_antisymm; [by apply count_nonempty_history|].
  rewrite (count_nonempty_occupied _ (bh_wf _ _ Hok)).
  rewrite <- (length_fmap move_pos h).
  apply submseteq_length, NoDup_submseteq; [apply Hok|].
  intros p (m & -> & Hm)%list_elem_of_fmap.
  destruct (bh_marks _ _ Hok m Hm) as [Hat Hmk].
  pose proof (bh_valid _ _ Hok) as Hval.
  rewrite Forall_forall in Hval. destruct (Hval m Hm) as [Hr Hc].
  apply list_elem_of_filter. split.
  - rewrite Hat. by apply is_mark_nonempty.
  - unfold move_pos, all_pos.
    destruct (norm_cases _ Hr) as [-> | [-> | ->]],
             (norm_cases _ Hc) as [-> | [-> | ->]];
      repeat first [apply list_elem_of_here | apply list_elem_of_further].
Qed.

(** ** The two outcomes of the vanishing step *)

Lemma vanished_evict (s : session_state) (old : move) (rest : list move) :
  move_history s = old :: rest →
  vanish_after s * 2 < Z.of_nat (length (move_history s)) →
  vanished s
  = set_board (set_cell (board s) (move_pos old).1 (move_pos old).2 "")
      (set_move_history rest s).
Proof.
  intros Hh Hlen. unfold vanished.
  destruct (Z.gtb_spec (Z.of_nat (length (move_history s))) (vanish_after s * 2));
    [|lia].
  by rewrite Hh.
Qed.

Lemma vanished_keep (s : session_state) :
  Z.of_nat (length (move_history s)) ≤ vanish_after s * 2 → vanished s = s.
Proof.
  intros Hlen. unfold vanished.
  by destruct (Z.gtb_spec (Z.of_nat (length (move_history s))) (vanish_after s * 2));
    [lia|].
Qed.

Lemma place_vanish_run (row col : Z) (now : timestamp) (s : session_state) :
  inv s → legal s row col →
  (place_mark row col now;; handle_vanishing) s
  = (Return (), vanished (placed row col now s)).
Proof.
  intros Hinv Hlegal.
  pose proof (placed_bh row col now s Hinv Hlegal) as Hbh.
  destruct Hlegal as [_ Hget].
  destruct (py_getitem2_Return _ _ _ _ (bh_wf _ _ (inv_bh _ Hinv)) Hget)
    as (Hr & Hc & _).
  unfold mbind at 1, M_bind at 1.
  rewrite (place_mark_run _ _ _ _ (bh_wf _ _ (inv_bh _ Hinv)) Hr Hc).
  apply handle_vanishing_run; [apply Hbh | apply Hbh |].
  simpl. by destruct (move_history s).
Qed.

(** ** What a legal move does to the board *)

Lemma first_win_None_all (b : board_t) (ls : list line) :
  first_win b ls = None → ∀ l, l ∈ ls → line_wins b l = false.
Proof.
  induction ls as [|l0 ls IH]; simpl; intros Hnone l Hin.
  - by apply elem_of_nil in Hin.
  - destruct (line_wins b l0) eqn:E; [done|].
    apply elem_of_cons in Hin as [-> | Hin]; [done | by apply IH].
Qed.

Lemma winning_lines_range (l : line) :
  l ∈ winning_lines →
  ((l.1.1.1 < 3)%nat ∧ (l.1.1.2 < 3)%nat) ∧
  ((l.1.2.1 < 3)%nat ∧ (l.1.2.2 < 3)%nat) ∧
  ((l.2.1 < 3)%nat ∧ (l.2.2 < 3)%nat).
Proof.
  unfold winning_lines. intros H.
  repeat (apply elem_of_cons in H as [-> | H]; [simpl; lia|]).
  by apply elem_of_nil in H.
Qed.

(** The store after the mark is written and the vanishing step has run:
    either nothing was evicted, or the oldest record was. *)
Lemma vanished_placed (row col : Z) (now : timestamp) (s : session_state) :
  let s1 := vanished (placed row col now s) in
  let b1 := set_cell (board s) (norm row) (norm col) (current_player s) in
  let appended := (move_history s ++ [(row, col, current_player s, now)])%list in
  (Z.of_nat (length appended) ≤ vanish_after s * 2 ∧
   board s1 = b1 ∧ move_history s1 = appended) ∨
  (vanish_after s * 2 < Z.of_nat (length appended) ∧
   ∃ old rest, appended = old :: rest ∧
     board s1 = set_cell b1 (move_pos old).1 (move_pos old).2 "" ∧
     move_history s1 = rest).
Proof.
  intros s1 b1 appended.
  destruct (decide (Z.of_nat (length appended) ≤ vanish_after s * 2)) as [Hle|Hgt].
  - left. split; [done|]. unfold s1. by rewrite vanished_keep.
  - right. split; [lia|].
    destruct appended as [|old rest] eqn:E.
    { by destruct (move_history s). }
    exists old, rest. split; [done|]. unfold s1.
    rewrite (vanished_evict _ old rest); [done | exact E |].
    change (move_history (placed row col now s)) with appended.
    rewrite E. simpl vanish_after. lia.
Qed.

(** A cell of the board after a legal move is empty, or the new mark, or
    what it was. *)
Lemma moved_cell (row col : Z) (now : timestamp) (s : session_state) (p : pos) :
  inv s → legal s row col → (p.1 < 3)%nat → (p.2 < 3)%nat →
  at_pos (board (vanished (placed row col now s))) p = "" ∨
  (p = (norm row, norm col) ∧
   at_pos (board (vanished (placed row col now s))) p = current_player s) ∨
  (p ≠ (norm row, norm col) ∧
   at_pos (board (vanished (placed row col now s))) p = at_pos (board s) p).
Proof.
  intros Hinv Hlegal Hp1 Hp2.
  pose proof (placed_bh row col now s Hinv Hlegal) as Hbh.
  destruct Hlegal as [_ Hget].
  destruct (py_getitem2_Return _ _ _ _ (bh_wf _ _ (inv_bh _ Hinv)) Hget)
    as (Hr & Hc & _).
  assert (∀ q : pos,
            at_pos (set_cell (board s) (norm row) (norm col) (current_player s)) q
            = if decide ((norm row, norm col) = q) then current_player s
              else at_pos (board s) q) as Hplaced.
  { intros [i j]. case_decide as Hq.
    - injection Hq as <- <-. apply cell_set_cell_eq;
        [apply Hinv | by apply norm_lt..].
    - by apply cell_set_cell_ne. }
  destruct p as [i j]. simpl in Hp1, Hp2.
  destruct (vanished_placed row col now s)
    as [(_ & -> & _) | (_ & old & rest & Happ & -> & _)].
  - rewrite Hplaced. case_decide as Hq; [right; left | right; right]; naive_solver.
  - destruct (move_pos old) as [oi oj]. simpl.
    destruct (decide ((oi, oj) = (i, j))) as [Hold|Hold].
    + left. injection Hold as -> ->. apply cell_set_cell_eq; [apply Hbh | done..].
    + assert (∀ b, at_pos (set_cell b oi oj "") (i, j) = at_pos b (i, j)) as ->.
      { intros b. by apply cell_set_cell_ne. }
      rewrite Hplaced.
      case_decide as Hq; [right; left | right; right]; naive_solver.
Qed.

(** A line that wins after a legal move on a board without a winning line
    runs through the cell just played. *)
Lemma moved_line_carries_mover (row col : Z) (now : timestamp)
    (s : session_state) (l : line) :
  inv s → legal s row col →
  first_win (board s) winning_lines = None →
  l ∈ winning_lines →
  line_wins (board (vanished (placed row col now s))) l = true →
  at_pos (board (vanished (placed row col now s))) l.1.1 = current_player s.
Proof.
  intros Hinv Hlegal Hnone Hl Hwin.
  destruct (winning_lines_range l Hl) as ([Ha1 Ha2] & [Hb1 Hb2] & [Hc1 Hc2]).
  pose proof (first_win_None_all _ _ Hnone l Hl) as Hold.
  apply wins3_spec in Hwin as (Hn1 & Hn2 & Hn3 & H12 & H23).
  destruct (moved_cell row col now s l.1.1 Hinv Hlegal Ha1 Ha2)
    as [? | [[_ ?] | [_ E1]]]; [done | done |].
  destruct (moved_cell row col now s l.1.2 Hinv Hlegal Hb1 Hb2)
    as [? | [[_ ?] | [_ E2]]]; [done | congruence |].
  destruct (moved_cell row col now s l.2 Hinv Hlegal Hc1 Hc2)
    as [? | [[_ ?] | [_ E3]]]; [done | congruence |].
  exfalso. apply not_true_iff_false in Hold. apply Hold.
  apply wins3_spec. rewrite <- E1, <- E2, <- E3. by split_and!.
Qed.

(** With a limit of at least 1 the mark just written survives the
    vanishing step. *)
Lemma placed_mark_stays (row col : Z) (now : timestamp) (s : session_state) :
  inv s → legal s row col → 1 ≤ vanish_after s →
  cell (board (vanished (placed row col now s))) (norm row) (norm col)
  = current_player s.
Proof.
  intros Hinv Hlegal Hv.
  pose proof (inv_bh _ Hinv) as Hbh.
  destruct Hlegal as [_ Hget].
  destruct (py_getitem2_Return _ _ _ _ (bh_wf _ _ Hbh) Hget)
    as (Hr & Hc & Hempty).
  destruct (vanished_placed row col now s)
    as [(_ & -> & _) | (Hlong & old & rest & Happ & -> & _)].
  - apply cell_set_cell_eq; [apply Hbh | by apply norm_lt..].
  - destruct (move_history s) as [|m h] eqn:Hh.
    { rewrite length_app in Hlong. simpl in Hlong. lia. }
    simpl in Happ. injection Happ as <- _.
    destruct (bh_marks _ _ Hbh m) as [Hat Hmk]; [left|].
    rewrite cell_set_cell_ne.
    + apply cell_set_cell_eq; [apply Hbh | by apply norm_lt..].
    + rewrite <- surjective_pairing. intros Heq.
      unfold at_pos in Hat. rewrite Heq in Hat. simpl in Hat.
      apply is_mark_nonempty in Hmk. congruence.
Qed.

(** A legal move never leaves the store as it was: the game ends or the
    turn passes. *)
Lemma settled_changes (s : session_state) :
  game_over s = false → is_mark (current_player s) →
  game_over (settled s) = true ∨ current_player (settled s) ≠ current_player s.
Proof.
  intros Hgo Hp. unfold settled.
  destruct (first_win _ _); [by left|].
  destruct (is_board_full _); [by left|]. right. simpl.
  by destruct Hp as [-> | ->].
Qed.

(** A legal move on a state of the invariant, phase by phase. *)
Lemma legal_move_run (row col : Z) (now : timestamp) (s : session_state) :
  inv s → legal s row col →
  ∃ s1 s',
    s1 = vanished (placed row col now s) ∧ s' = settled s1 ∧
    board_hist_ok (board s1) (move_history s1) ∧
    current_player s1 = current_player s ∧ game_over s1 = false ∧
    (place_mark row col now;; handle_vanishing) s = (Return (), s1) ∧
    settle s1 = (Return (), s') ∧
    make_move row col now s = (Return (), s').
Proof.
  intros Hinv Hlegal.
  exists (vanished (placed row col now s)),
         (settled (vanished (placed row col now s))).
  pose proof (vanished_bh _ (placed_bh row col now s Hinv Hlegal)) as Hbh.
  destruct (vanished_other (placed row col now s)) as (Hp & Hgo & _ & _).
  split_and!; try done.
  - by rewrite Hgo; apply Hlegal.
  - by apply place_vanish_run.
  - apply settle_run, Hbh.
  - by apply make_move_legal_inv.
Qed.

(** ** The verdict stored with the board *)

Lemma settled_won (s : session_state) (w : string) :
  first_win (board s) winning_lines = Some w →
  settled s = set_game_over true (set_winner (Some w) s).
Proof. intros H. unfold settled. by rewrite H. Qed.

Lemma settled_tied (s : session_state) :
  first_win (board s) winning_lines = None → is_board_full (board s) = true →
  settled s = set_winner (Some "Tie") (set_game_over true s).
Proof. intros H F. unfold settled. by rewrite H, F. Qed.

Lemma settled_next (s : session_state) :
  first_win (board s) winning_lines = None → is_board_full (board s) = false →
  settled s
  = set_current_player
      (if String.eqb (current_player s) "X" then "O" else "X") s.
Proof. intros H F. unfold settled. by rewrite H, F. Qed.

Lemma reachable_verdict (v : Z) (s : session_state) :
  reachable v s →
  (game_over s = false →
   winner s = None ∧ first_win (board s) winning_lines = None ∧
   is_board_full (board s) = false) ∧
  (game_over s = true →
   (winner s = Some "Tie" ∧ first_win (board s) winning_lines = None ∧
    is_board_full (board s) = true) ∨
   (winner s = Some (current_player s) ∧
    first_win (board s) winning_lines = Some (current_player s))) ∧
  (∀ l, l ∈ winning_lines → line_wins (board s) l = true →
        at_pos (board s) l.1.1 = current_player s).
Proof.
  induction 1 as [s0 | s row col now Hreach (IHrun & IHover & IHlines)].
  - rewrite exec_new_game. cbn [game_over winner board current_player].
    split_and!; [done | done |].
    intros l Hl Hwin.
    by rewrite (first_win_None_all empty_board winning_lines eq_refl l Hl) in Hwin.
  - destruct (reachable_inv v s Hreach) as [Hinv _].
    destruct (decide (legal s row col)) as [Hlegal|Hn];
      [| by rewrite make_move_illegal].
    unfold exec. rewrite make_move_legal_inv by done. cbn [snd].
    destruct (IHrun (proj1 Hlegal)) as (Hw & Hnone & _).
    pose proof (λ l, moved_line_carries_mover row col now s l Hinv Hlegal Hnone)
      as Hmover.
    destruct (vanished_other (placed row col now s)) as (Hp & Hgo & Hwin & _).
    change (current_player (placed row col now s)) with (current_player s) in Hp.
    change (game_over (placed row col now s)) with (game_over s) in Hgo.
    change (winner (placed row col now s)) with (winner s) in Hwin.
    rewrite (proj1 Hlegal) in Hgo. rewrite Hw in Hwin.
    set (s1 := vanished (placed row col now s)) in *.
    destruct (first_win (board s1) winning_lines) as [w|] eqn:E.
    + assert (w = current_player s) as ->.
      { apply first_win_Some in E as (l & Hl & Hlw & <-). by apply Hmover. }
      rewrite (settled_won _ _ E).
      cbn [game_over winner board current_player set_game_over set_winner].
      rewrite Hp. split_and!; [done | by right | done].
    + pose proof (first_win_None_all _ _ E) as Hall.
      destruct (is_board_full (board s1)) eqn:F.
      * rewrite (settled_tied _ E F).
        cbn [game_over winner board current_player set_game_over set_winner].
        split_and!; [done | by left |].
        intros l Hl Hlw. by rewrite (Hall l Hl) in Hlw.
      * rewrite (settled_next _ E F).
        cbn [game_over winner board current_player set_current_player].
        split_and!; [done | by rewrite Hgo |].
        intros l Hl Hlw. by rewrite (Hall l Hl) in Hlw.
Qed.

(** * Properties of the engine *)

(** ** Eviction *)

(** C1: in every reachable state (limit [v >= 0]) the history holds at most
    [2 * v] moves.  A legal [make_move] returns; if the history with the new
    move appended is longer than [2 * v], exactly the record at index 0 is
    removed and its cell is written back to empty, otherwise nothing is
    evicted; either way at most [2 * v] moves remain. *)
Theorem make_move_evicts_oldest (v : Z) (s : session_state) :
  0 ≤ v → reachable v s →
  Z.of_nat (length (move_history s)) ≤ 2 * v ∧
  ∀ (row col : Z) (now : timestamp), legal s row col →
    let appended :=
      (move_history s ++ [(row, col, current_player s, now)])%list in
    ∃ (b1 : board_t) (s' : session_state),
      py_setitem2 (board s) row col (current_player s) = Return b1 ∧
      make_move row col now s = (Return (), s') ∧
      Z.of_nat (length (move_history s')) ≤ 2 * v ∧
      (2 * v < Z.of_nat (length appended) →
       ∃ (old : move) (b2 : board_t),
         appended !! 0%nat = Some old ∧
         move_history s' = drop 1 appended ∧
         py_setitem2 b1 (move_row old) (move_col old) "" = Return b2 ∧
         board s' = b2 ∧
         py_getitem2 (board s') (move_row old) (move_col old) = Return "") ∧
      (Z.of_nat (length appended) ≤ 2 * v →
       move_history s' = appended ∧ board s' = b1).
Proof.
  intros Hv Hreach. destruct (reachable_inv v s Hreach) as [Hinv Hva].
  pose proof (inv_len _ Hinv) as Hlen. rewrite Hva in Hlen.
  split; [lia|].
  intros row col now Hlegal appended.
  pose proof (placed_bh row col now s Hinv Hlegal) as Hbh.
  pose proof (inv_step row col now s Hinv Hlegal) as Hinv'.
  destruct (settled_keeps (vanished (placed row col now s))) as (Hb & Hh & Hv').
  destruct (vanished_other (placed row col now s)) as (_ & _ & _ & Hv'').
  destruct Hlegal as [Hgo Hget].
  destruct (py_getitem2_Return _ _ _ _ (bh_wf _ _ (inv_bh _ Hinv)) Hget)
    as (Hr & Hc & _).
  exists (board (placed row col now s)), (settled (vanished (placed row col now s))).
  split_and!.
  - by apply py_setitem2_valid; [apply Hinv|..].
  - by apply make_move_legal_inv.
  - pose proof (inv_len _ Hinv') as Hlen'.
    rewrite Hv', Hv'' in Hlen'. simpl in Hlen'. lia.
  - intros Hlong. rewrite Hb, Hh.
    destruct appended as [|old rest] eqn:Happ.
    { by destruct (move_history s). }
    assert (valid_move old) as [Hro Hco].
    { pose proof (bh_valid _ _ Hbh) as Hval. simpl in Hval.
      fold appended in Hval. rewrite Happ in Hval.
      by apply Forall_cons in Hval as [? _]. }
    rewrite (vanished_evict _ old rest); [| exact Happ |]; cycle 1.
    { change (move_history (placed row col now s)) with appended.
      rewrite Happ. simpl vanish_after. lia. }
    exists old, (set_cell (board (placed row col now s))
                   (move_pos old).1 (move_pos old).2 "").
    simpl. split_and!; try done.
    + apply py_setitem2_valid; [apply Hbh | done..].
    + rewrite py_getitem2_valid; [| apply wf_set_cell, Hbh | done..].
      f_equal. apply cell_set_cell_eq; [apply Hbh | by apply norm_lt..].
  - intros Hshort. rewrite Hb, Hh.
    rewrite vanished_keep; [done|].
    change (move_history (placed row col now s)) with appended.
    simpl vanish_after. lia.
Qed.

(** ** Calls the guard turns away *)

(** C4: when the game is over (won or tied), or when the addressed cell in
    [0,2] x [0,2] is occupied, [make_move] returns with the store exactly as
    it was: board, history, current player and status. *)
Theorem make_move_noop (s : session_state) (row col : Z) (now : timestamp) :
  (game_status s = Tied ∨ (∃ w, game_status s = Won w)) ∨
  (0 ≤ row ≤ 2 ∧ 0 ≤ col ≤ 2 ∧
   ∃ x, py_getitem2 (board s) row col = Return x ∧ x ≠ "") →
  make_move row col now s = (Return (), s).
Proof.
  intros [Hover | (_ & _ & x & Hget & Hx)].
  - apply make_move_over. unfold game_status in Hover.
    destruct (game_over s); [done|]. by destruct Hover as [? | [? ?]].
  - destruct (game_over s) eqn:Hgo; [by apply make_move_over|].
    by apply (make_move_occupied _ _ _ _ x).
Qed.

(** C2 (as the code has it): with [row] or [col] outside [0,2], a call on a
    finished game returns with the store unchanged; on a running game with a
    3x3 board it raises [IndexError], store unchanged, when [row] or [col]
    is outside [-3,2]; and an index in [-3,-1] addresses the cell three
    further on.  There the call is a no-op exactly when that cell is
    occupied: when it is empty (on a reachable state) the call returns with
    a changed store, the mark written to the addressed cell and the record
    appended with the indices as given. *)
Theorem make_move_out_of_range (v : Z) (s : session_state) (row col : Z)
    (now : timestamp) :
  ¬ (0 ≤ row ≤ 2 ∧ 0 ≤ col ≤ 2) →
  (game_over s = true → make_move row col now s = (Return (), s)) ∧
  (game_over s = false → wf_board (board s) →
   ¬ (-3 ≤ row ≤ 2 ∧ -3 ≤ col ≤ 2) →
   make_move row col now s = (Raise IndexError, s)) ∧
  (game_over s = false → wf_board (board s) →
   -3 ≤ row ≤ 2 → -3 ≤ col ≤ 2 →
   py_getitem2 (board s) row col
   = Return (cell (board s) (norm row) (norm col)) ∧
   (norm row = Z.to_nat (if row <? 0 then row + 3 else row)) ∧
   (norm col = Z.to_nat (if col <? 0 then col + 3 else col)) ∧
   (cell (board s) (norm row) (norm col) ≠ "" →
    make_move row col now s = (Return (), s))) ∧
  (game_over s = false → reachable v s →
   -3 ≤ row ≤ 2 → -3 ≤ col ≤ 2 →
   (make_move row col now s = (Return (), s) ↔
    cell (board s) (norm row) (norm col) ≠ "") ∧
   (cell (board s) (norm row) (norm col) = "" →
    ∃ (b1 : board_t) (s' : session_state),
      py_setitem2 (board s) row col (current_player s) = Return b1 ∧
      py_getitem2 b1 (Z.of_nat (norm row)) (Z.of_nat (norm col))
      = Return (current_player s) ∧
      make_move row col now s = (Return (), s') ∧
      s' ≠ s ∧
      (move_history s'
       = (move_history s ++ [(row, col, current_player s, now)])%list ∨
       move_history s'
       = drop 1 (move_history s ++ [(row, col, current_player s, now)])%list) ∧
      (1 ≤ v →
       py_getitem2 (board s') row col = Return (current_player s) ∧
       py_getitem2 (board s') (Z.of_nat (norm row)) (Z.of_nat (norm col))
       = Return (current_player s)))).
Proof.
  intros _. split_and!.
  - apply make_move_over.
  - intros Hgo Hwf Hn. apply make_move_raises; [done..|].
    unfold valid. lia.
  - intros Hgo Hwf Hr Hc.
    assert (valid row) as Hvr by (unfold valid; lia).
    assert (valid col) as Hvc by (unfold valid; lia).
    pose proof (py_getitem2_valid _ _ _ Hwf Hvr Hvc) as Hget.
    split_and!; [done..|].
    intros Hocc. by apply (make_move_occupied _ _ _ _ _ Hgo Hget).
  - intros Hgo Hreach Hr Hc.
    destruct (reachable_inv v s Hreach) as [Hinv Hv].
    pose proof (bh_wf _ _ (inv_bh _ Hinv)) as Hwf.
    assert (valid row) as Hvr by (unfold valid; lia).
    assert (valid col) as Hvc by (unfold valid; lia).
    pose proof (py_getitem2_valid _ _ _ Hwf Hvr Hvc) as Hget.
    pose proof (norm_lt _ Hvr) as Hnr. pose proof (norm_lt _ Hvc) as Hnc.
    assert (∀ n : nat, (n < 3)%nat →
              valid (Z.of_nat n) ∧ norm (Z.of_nat n) = n) as Hnat.
    { intros n Hn. split; [unfold valid; lia|].
      rewrite norm_id by lia. apply Nat2Z.id. }
    destruct (Hnat _ Hnr) as [Hvr' Hnr']. destruct (Hnat _ Hnc) as [Hvc' Hnc'].
    assert (cell (board s) (norm row) (norm col) = "" →
            ∃ (b1 : board_t) (s' : session_state),
              py_setitem2 (board s) row col (current_player s) = Return b1 ∧
              py_getitem2 b1 (Z.of_nat (norm row)) (Z.of_nat (norm col))
              = Return (current_player s) ∧
              make_move row col now s = (Return (), s') ∧
              s' ≠ s ∧
              (move_history s'
               = (move_history s ++ [(row, col, current_player s, now)])%list ∨
               move_history s'
               = drop 1 (move_history s
                         ++ [(row, col, current_player s, now)])%list) ∧
              (1 ≤ v →
               py_getitem2 (board s') row col = Return (current_player s) ∧
               py_getitem2 (board s') (Z.of_nat (norm row))
                 (Z.of_nat (norm col))
               = Return (current_player s))) as Hmade.
    { intros Hempty.
      assert (legal s row col) as Hlegal by (split; [done | by rewrite Hget, Hempty]).
      destruct (legal_move_run row col now s Hinv Hlegal)
        as (s1 & s' & Hs1 & Hs' & Hbh & Hp & Hgo1 & _ & _ & Hmove).
      destruct (settled_keeps s1) as (Hb & Hh & _).
      exists (set_cell (board s) (norm row) (norm col) (current_player s)), s'.
      split_and!.
      - by apply py_setitem2_valid.
      - rewrite py_getitem2_valid; [| by apply wf_set_cell | done..].
        rewrite Hnr', Hnc'. f_equal. by apply cell_set_cell_eq.
      - done.
      - intros ->.
        destruct (settled_changes s1 Hgo1) as [Hover | Hturn].
        + rewrite Hp. apply Hinv.
        + rewrite <- Hs' in Hover. congruence.
        + rewrite <- Hs', Hp in Hturn. done.
      - rewrite Hs', Hh, Hs1.
        destruct (vanished_placed row col now s)
          as [(_ & _ & ->) | (_ & old & rest & -> & _ & ->)]; [by left | by right].
      - intros Hv1. rewrite Hs', Hb, Hs1.
        pose proof (placed_mark_stays row col now s Hinv Hlegal ltac:(lia)) as Hstay.
        assert (wf_board (board (vanished (placed row col now s)))) as Hwf1
          by (rewrite <- Hs1; apply Hbh).
        rewrite !py_getitem2_valid by done.
        rewrite Hnr', Hnc'. by rewrite Hstay. }
    split; [|done]. split.
    + intros Hnoop He.
      destruct (Hmade He) as (b1 & s' & _ & _ & Hmove & Hne & _).
      rewrite Hmove in Hnoop. by injection Hnoop.
    + intros Hocc. by apply (make_move_occupied _ _ _ _ _ Hgo Hget).
Qed.

(** ** A fresh game *)

(** C8: for every limit [v] and whatever the store held before, the new
    game returns (it cannot raise) with the empty 3x3 board, an empty
    history, ['X'] to move and the game in progress; nothing of the prior
    game survives. *)
Theorem new_game_fresh (v : Z) (s0 : session_state) :
  new_game v s0
  = (Return (),
     SessionState [[""; ""; ""]; [""; ""; ""]; [""; ""; ""]] [] "X" false None v) ∧
  reset_game s0
  = (Return (),
     SessionState [[""; ""; ""]; [""; ""; ""]; [""; ""; ""]] [] "X" false None
       (vanish_after s0)) ∧
  is_board_full (board (exec (new_game v) s0)) = false ∧
  count_nonempty (board (exec (new_game v) s0)) = 0%nat ∧
  game_status (exec (new_game v) s0) = InProgress ∧
  ∀ s1 : session_state, new_game v s1 = new_game v s0.
Proof. by split_and!. Qed.

(** ** Winner, tie, turn *)

Lemma first_win_first (b : board_t) (ls : list line) (w : string) :
  first_win b ls = Some w ↔
  ∃ before l after,
    ls = (before ++ l :: after)%list ∧
    Forall (λ l', line_wins b l' = false) before ∧
    line_wins b l = true ∧ at_pos b l.1.1 = w.
Proof.
  revert w. induction ls as [|l0 ls IH]; intros w; simpl.
  - split; [done|]. intros (before & l & after & Heq & _).
    by destruct before.
  - destruct (line_wins b l0) eqn:E.
    + split.
      * intros [= <-]. exists [], l0, ls. by split_and!.
      * intros (before & l & after & Heq & Hbefore & Hl & <-).
        destruct before as [|l1 before]; simplify_eq/=; [done|].
        apply Forall_cons in Hbefore as [? _]. congruence.
    + rewrite IH. split.
      * intros (before & l & after & -> & Hbefore & Hl & Hw).
        exists (l0 :: before), l, after. split_and!; try done.
        by constructor.
      * intros (before & l & after & Heq & Hbefore & Hl & Hw).
        destruct before as [|l1 before]; simplify_eq/=; [congruence|].
        apply Forall_cons in Hbefore as [_ Hbefore].
        by exists before, l, after.
Qed.

(** C3: a legal [make_move] runs the winner check on the board as the
    vanishing step left it.  The check returns the mark of the first of the
    eight lines, in the order of [winning_lines], whose three cells are
    non-empty and identical.  When it returns a mark, that mark is recorded
    as the winner, the game is over with status won, and every later call
    is turned away, whatever cells are still empty. *)
Theorem winner_decided_after_eviction (v : Z) (s : session_state)
    (row col : Z) (now : timestamp) :
  reachable v s → legal s row col →
  ∃ s1 s' : session_state,
    (place_mark row col now;; handle_vanishing) s = (Return (), s1) ∧
    settle s1 = (Return (), s') ∧
    make_move row col now s = (Return (), s') ∧
    board s' = board s1 ∧
    check_winner (board s1) = Return (first_win (board s1) winning_lines) ∧
    (∀ w, first_win (board s1) winning_lines = Some w ↔
       ∃ before l after,
         winning_lines = (before ++ l :: after)%list ∧
         Forall (λ l', line_wins (board s1) l' = false) before ∧
         line_wins (board s1) l = true ∧ at_pos (board s1) l.1.1 = w) ∧
    (∀ l : line, line_wins (board s1) l = true ↔
       at_pos (board s1) l.1.1 ≠ "" ∧ at_pos (board s1) l.1.2 ≠ "" ∧
       at_pos (board s1) l.2 ≠ "" ∧
       at_pos (board s1) l.1.1 = at_pos (board s1) l.1.2 ∧
       at_pos (board s1) l.1.2 = at_pos (board s1) l.2) ∧
    ∀ w : string, check_winner (board s1) = Return (Some w) →
      is_mark w ∧ winner s' = Some w ∧ game_over s' = true ∧
      game_status s' = Won (Some w) ∧
      ∀ (r c : Z) (t : timestamp), make_move r c t s' = (Return (), s').
Proof.
  intros Hreach Hlegal. destruct (reachable_inv v s Hreach) as [Hinv _].
  destruct (legal_move_run row col now s Hinv Hlegal)
    as (s1 & s' & Hs1 & Hs' & Hbh & Hp & Hgo & Hpv & Hsettle & Hmove).
  exists s1, s'. split_and!; try done.
  - rewrite Hs'. apply settled_keeps.
  - apply check_winner_first_win, Hbh.
  - intros w. apply first_win_first.
  - intros l. apply wins3_spec.
  - intros w Hw.
    rewrite (check_winner_first_win _ (bh_wf _ _ Hbh)) in Hw.
    injection Hw as Hw.
    pose proof (first_win_mark _ _ _ Hbh Hw) as Hmk.
    rewrite Hs', (settled_won _ _ Hw).
    split_and!; [done.. | | intros r c t; by apply make_move_over].
    unfold game_status. simpl.
    rewrite bool_decide_eq_false_2; [done|].
    intros [= ->]. by destruct Hmk.
Qed.

(** C6: after a legal [make_move] that leaves the game in progress, the
    player to move is the other mark: ['O'] after ['X'] and ['X'] after
    ['O'], the mark just written being that of the player who moved.  A new
    game starts with ['X']. *)
Theorem turn_alternates (v : Z) (s : session_state) (row col : Z)
    (now : timestamp) :
  reachable v s → legal s row col →
  (∀ s0 : session_state, current_player (exec (new_game v) s0) = "X") ∧
  ∃ s' : session_state,
    make_move row col now s = (Return (), s') ∧
    (∀ m : move, last (move_history s') = Some m →
       m = (row, col, current_player s, now)) ∧
    (game_over s' = false →
     current_player s' ≠ current_player s ∧
     current_player s'
     = (if String.eqb (current_player s) "X" then "O" else "X") ∧
     ((current_player s = "X" ∧ current_player s' = "O") ∨
      (current_player s = "O" ∧ current_player s' = "X"))).
Proof.
  intros Hreach Hlegal. split; [done|].
  destruct (reachable_inv v s Hreach) as [Hinv _].
  destruct (legal_move_run row col now s Hinv Hlegal)
    as (s1 & s' & Hs1 & Hs' & Hbh & Hp & Hgo & Hpv & Hsettle & Hmove).
  exists s'. split_and!; [done | |].
  - intros m. rewrite Hs'. destruct (settled_keeps s1) as (_ & -> & _).
    rewrite Hs1. unfold vanished.
    destruct (_ >? _); simpl.
    + destruct (move_history s) as [|old rest]; simpl; [done|].
      rewrite last_snoc. by intros [= <-].
    + rewrite last_snoc. by intros [= <-].
  - rewrite Hs'. unfold settled.
    destruct (first_win (board s1) winning_lines); [done|].
    destruct (is_board_full (board s1)); [done|]. simpl. intros _.
    rewrite Hp. destruct (inv_player _ Hinv) as [-> | ->]; simpl; auto.
Qed.

(** ** How many marks the board holds *)

Lemma reachable_count (v : Z) (s : session_state) :
  reachable v s →
  count_nonempty (board s) = length (move_history s) ∧
  Z.of_nat (length (move_history s)) ≤ Z.max 0 (2 * v).
Proof.
  intros Hreach. destruct (reachable_inv v s Hreach) as [Hinv Hv].
  split; [apply count_nonempty_eq_history, Hinv|].
  pose proof (inv_len _ Hinv). rewrite Hv in *. lia.
Qed.

Lemma reachable_not_full (v : Z) (s : session_state) :
  v ≤ 4 → reachable v s → is_board_full (board s) = false.
Proof.
  intros Hv Hreach. destruct (reachable_count v s Hreach) as [Hcount Hlen].
  destruct (reachable_inv v s Hreach) as [Hinv _].
  destruct (is_board_full (board s)) eqn:F; [|done].
  apply is_board_full_count in F; [lia | apply Hinv].
Qed.

Lemma reachable_status (v : Z) (s : session_state) :
  v ≤ 4 → reachable v s →
  game_status s = InProgress ∨ game_status s = Won (Some "X") ∨
  game_status s = Won (Some "O").
Proof.
  intros Hv Hreach. destruct (reachable_inv v s Hreach) as [Hinv _].
  pose proof (reachable_not_full v s Hv Hreach) as Hnf.
  unfold game_status. destruct (game_over s) eqn:Hgo; [|by left].
  destruct (inv_over _ Hinv Hgo) as [-> | [-> | [_ F]]]; [by auto.. | congruence].
Qed.

(** C5: from a new game with limit [v >= 0], whatever calls follow, the
    board never holds more than [2 * v] marks. *)
Theorem marks_bounded (v : Z) (s : session_state) :
  0 ≤ v → reachable v s → Z.of_nat (count_nonempty (board s)) ≤ 2 * v.
Proof.
  intros Hv Hreach. destruct (reachable_count v s Hreach) as [-> Hlen]. lia.
Qed.

(** C10: with a limit of 2, 3 or 4 the board of a reachable state is never
    full, so the status is never tied: the game is in progress or won by
    ['X'] or by ['O']. *)
Theorem tie_unreachable (v : Z) (s : session_state) :
  2 ≤ v ≤ 4 → reachable v s →
  Z.of_nat (count_nonempty (board s)) ≤ 8 ∧
  is_board_full (board s) = false ∧
  game_status s ≠ Tied ∧
  (game_status s = InProgress ∨ game_status s = Won (Some "X") ∨
   game_status s = Won (Some "O")).
Proof.
  intros Hv Hreach.
  destruct (reachable_count v s Hreach) as [Hcount Hlen].
  pose proof (reachable_status v s (proj2 Hv) Hreach) as Hst.
  split_and!; [lia | by apply (reachable_not_full v); [lia|] | | done].
  by destruct Hst as [-> | [-> | ->]].
Qed.

Lemma NoDup_fmap_unique {A B : Type} (f : A → B) (l : list A) (x y : A) :
  NoDup (f <$> l) → x ∈ l → y ∈ l → f x = f y → x = y.
Proof.
  induction l as [|a l IH]; intros Hnd Hx Hy Hf.
  - by apply elem_of_nil in Hx.
  - rewrite fmap_cons in Hnd. apply NoDup_cons in Hnd as [Hnotin Hnd].
    apply elem_of_cons in Hx as [-> | Hx], Hy as [-> | Hy].
    + done.
    + exfalso. apply Hnotin. rewrite Hf. apply list_elem_of_fmap. eauto.
    + exfalso. apply Hnotin. rewrite <- Hf. apply list_elem_of_fmap. eauto.
    + by apply IH.
Qed.

(** C7: [is_board_full] answers true exactly when no cell of any row is
    empty.  After a legal [make_move], if the board left by the vanishing
    step has no winner and no empty cell, the game is over and tied.  So in
    every reachable state a full board without a winner means the status is
    tied; in particular after at most six calls from a new game with
    limit 3. *)
Theorem tie_when_board_full :
  (∀ b : board_t,
     is_board_full b = true ↔
     ∀ (row : list string) (c : string), row ∈ b → c ∈ row → c ≠ "") ∧
  (∀ (v : Z) (s : session_state) (row col : Z) (now : timestamp),
     reachable v s → legal s row col →
     ∃ s1 s' : session_state,
       (place_mark row col now;; handle_vanishing) s = (Return (), s1) ∧
       make_move row col now s = (Return (), s') ∧
       board s' = board s1 ∧
       (check_winner (board s1) = Return None →
        is_board_full (board s1) = true →
        game_over s' = true ∧ winner s' = Some "Tie" ∧
        game_status s' = Tied)) ∧
  (∀ (v : Z) (s : session_state),
     reachable v s →
     is_board_full (board s) = true →
     check_winner (board s) = Return None →
     game_over s = true ∧ winner s = Some "Tie" ∧ game_status s = Tied) ∧
  (∀ (cs : list click) (s0 : session_state),
     (length cs ≤ 6)%nat →
     is_board_full (board (play cs (exec (new_game 3) s0))) = true →
     check_winner (board (play cs (exec (new_game 3) s0))) = Return None →
     game_status (play cs (exec (new_game 3) s0)) = Tied).
Proof.
  assert (∀ (v : Z) (s : session_state),
            reachable v s →
            is_board_full (board s) = true →
            check_winner (board s) = Return None →
            game_over s = true ∧ winner s = Some "Tie" ∧ game_status s = Tied)
    as Hfull.
  { intros v s Hreach Hfull Hw.
    destruct (reachable_inv v s Hreach) as [Hinv _].
    destruct (reachable_verdict v s Hreach) as (Hrun & Hover & _).
    rewrite (check_winner_first_win _ (bh_wf _ _ (inv_bh _ Hinv))) in Hw.
    assert (first_win (board s) winning_lines = None) as Hnone
      by (injection Hw as Hw; exact Hw).
    destruct (game_over s) eqn:Hgo.
    - destruct (Hover eq_refl) as [(Htie & _ & _) | [_ Hwon]]; [|congruence].
      unfold game_status. by rewrite Hgo, Htie.
    - destruct (Hrun eq_refl) as (_ & _ & Hnf). congruence. }
  split_and!.
  - intros b. rewrite is_board_full_spec, Forall_forall.
    split.
    + intros H row c Hrow. specialize (H row Hrow).
      rewrite Forall_forall in H. apply H.
    + intros H row Hrow. apply Forall_forall. intros c. by apply H.
  - intros v s row col now Hreach Hlegal.
    destruct (reachable_inv v s Hreach) as [Hinv _].
    destruct (legal_move_run row col now s Hinv Hlegal)
      as (s1 & s' & Hs1 & Hs' & Hbh & Hp & Hgo & Hpv & Hsettle & Hmove).
    exists s1, s'. split_and!; [done.. | by rewrite Hs'; apply settled_keeps |].
    intros Hw Hfull1.
    rewrite (check_winner_first_win _ (bh_wf _ _ Hbh)) in Hw.
    injection Hw as Hw.
    by rewrite Hs', (settled_tied _ Hw Hfull1).
  - exact Hfull.
  - intros cs s0 _ Hfull1 Hw.
    by apply (Hfull 3 _ (reachable_play 3 cs _ (reach_new 3 s0))).
Qed.

(** ** Board and history *)

(** C9: in every reachable state the marks on the board are exactly the
    moves of the history.  Each record's cell (addressed the way Python
    addresses it) holds the record's player, ['X'] or ['O']; no two records
    address the same cell; every occupied cell is addressed by one record
    and no other; so there are as many marks as records. *)
Theorem board_matches_history (v : Z) (s : session_state) :
  reachable v s →
  (∀ m : move, m ∈ move_history s →
     (-3 ≤ move_row m ≤ 2 ∧ -3 ≤ move_col m ≤ 2) ∧
     py_getitem2 (board s) (move_row m) (move_col m) = Return (move_player m) ∧
     is_mark (move_player m)) ∧
  NoDup (move_pos <$> move_history s) ∧
  NoDup ((λ m : move, (move_row m, move_col m)) <$> move_history s) ∧
  (∀ (i j : Z) (x : string),
     0 ≤ i ≤ 2 → 0 ≤ j ≤ 2 →
     py_getitem2 (board s) i j = Return x → x ≠ "" →
     ∃ m : move,
       m ∈ move_history s ∧ move_pos m = (Z.to_nat i, Z.to_nat j) ∧
       move_player m = x ∧
       ∀ m' : move, m' ∈ move_history s →
         move_pos m' = (Z.to_nat i, Z.to_nat j) → m' = m) ∧
  count_nonempty (board s) = length (move_history s).
Proof.
  intros Hreach. destruct (reachable_inv v s Hreach) as [Hinv _].
  pose proof (inv_bh _ Hinv) as Hbh.
  split_and!.
  - intros m Hm. destruct (bh_marks _ _ Hbh m Hm) as [Hat Hmk].
    pose proof (bh_valid _ _ Hbh) as Hval. rewrite Forall_forall in Hval.
    destruct (Hval m Hm) as [Hr Hc].
    split_and!; [unfold valid in *; lia.. | | done].
    rewrite py_getitem2_valid; [by f_equal | apply Hbh | done..].
  - apply Hbh.
  - apply (NoDup_fmap_1 (λ p : Z * Z, (norm p.1, norm p.2))).
    rewrite <- list_fmap_compose. apply Hbh.
  - intros i j x Hi Hj Hget Hx.
    destruct (py_getitem2_Return _ _ _ _ (bh_wf _ _ Hbh) Hget) as (_ & _ & Hcell).
    rewrite !norm_id in Hcell by lia.
    assert (Z.to_nat i < 3 ∧ Z.to_nat j < 3)%nat as [Hi' Hj'] by lia.
    assert (cell (board s) (Z.to_nat i) (Z.to_nat j) ≠ "") as Hocc by congruence.
    pose proof (bh_cover _ _ Hbh _ _ Hi' Hj' Hocc) as Hin.
    apply list_elem_of_fmap in Hin as (m & Hpos & Hm).
    exists m. split_and!; [done.. | |].
    + destruct (bh_marks _ _ Hbh m Hm) as [Hat _].
      unfold at_pos in Hat. rewrite <- Hpos in Hat. simpl in Hat. congruence.
    + intros m' Hm' Hpos'.
      apply (NoDup_fmap_unique move_pos (move_history s)); [apply Hbh | done.. |].
      congruence.
  - by apply count_nonempty_eq_history.
Qed.

(** * Worked games *)

Lemma reachable_top_row_game : reachable 3 top_row_game.
Proof. apply reachable_play, reach_new. Qed.

Lemma reachable_evicting_game : reachable 2 evicting_game.
Proof. apply reachable_play, reach_new. Qed.

Lemma reachable_draw_game : reachable 5 draw_game.
Proof. apply reachable_play, reach_new. Qed.

Example top_row_wins :
  exec (make_move 0 2 5%Q) top_row_game
  = SessionState [["X"; "X"; "X"]; ["O"; "O"; ""]; [""; ""; ""]]
      [(0, 0, "X", 1%Q); (1, 1, "O", 2%Q); (0, 1, "X", 3%Q); (1, 0, "O", 4%Q);
       (0, 2, "X", 5%Q)]
      "X" true (Some "X") 3.
Proof. reflexivity. Qed.

Example fifth_move_evicts_first :
  exec (make_move 2 2 5%Q) evicting_game
  = SessionState [[""; "X"; ""]; ["O"; "O"; ""]; [""; ""; "X"]]
      [(1, 1, "O", 2%Q); (0, 1, "X", 3%Q); (1, 0, "O", 4%Q); (2, 2, "X", 5%Q)]
      "O" false None 2.
Proof. reflexivity. Qed.

Example nine_moves_tie_with_limit_5 :
  game_status (play draw_clicks (exec (new_game 5) initial_session)) = Tied.
Proof. reflexivity. Qed.

(** * Instances *)

Ltac closed := vm_compute; reflexivity.

Lemma legal_evicting_game : legal evicting_game 2 2.
Proof. split; closed. Qed.

Lemma legal_top_row_game : legal top_row_game 0 2.
Proof. split; closed. Qed.

Lemma legal_draw_game : legal draw_game 2 2.
Proof. split; closed. Qed.

Lemma make_move_evicts_oldest_witness :
  Z.of_nat (length (move_history evicting_game)) ≤ 2 * 2 ∧
  ∃ s' : session_state,
    make_move 2 2 5%Q evicting_game = (Return (), s') ∧
    move_history s'
    = [(1, 1, "O", 2%Q); (0, 1, "X", 3%Q); (1, 0, "O", 4%Q); (2, 2, "X", 5%Q)] ∧
    py_getitem2 (board s') 0 0 = Return "".
Proof.
  destruct (make_move_evicts_oldest 2 evicting_game ltac:(lia)
              reachable_evicting_game) as [Hlen Hmove].
  split; [exact Hlen|].
  destruct (Hmove 2 2 5%Q legal_evicting_game)
    as (b1 & s' & _ & Hrun & _ & Hlong & _).
  assert (2 * 2 < Z.of_nat (length (move_history evicting_game ++
            [(2, 2, current_player evicting_game, 5%Q)]))) as Hl by closed.
  destruct (Hlong Hl) as (old & b2 & Hold & Hh & _ & _ & Hget).
  vm_compute in Hold. injection Hold as <-.
  exists s'. split_and!; [exact Hrun | exact Hh | exact Hget].
Defined.

Lemma make_move_noop_witness :
  make_move 0 0 6%Q (exec (make_move 0 2 5%Q) top_row_game)
  = (Return (), exec (make_move 0 2 5%Q) top_row_game) ∧
  make_move 1 1 5%Q top_row_game = (Return (), top_row_game).
Proof.
  split.
  - apply make_move_noop. left. right. exists (Some "X"). closed.
  - apply make_move_noop. right.
    split_and!; [lia.. |]. exists "O". split; [closed | discriminate].
Defined.

Lemma make_move_out_of_range_witness :
  make_move 3 0 5%Q top_row_game = (Raise IndexError, top_row_game) ∧
  make_move 3 0 6%Q (exec (make_move 0 2 5%Q) top_row_game)
  = (Return (), exec (make_move 0 2 5%Q) top_row_game) ∧
  make_move (-3) (-3) 5%Q top_row_game = (Return (), top_row_game) ∧
  ∃ s' : session_state,
    make_move (-1) 0 5%Q top_row_game = (Return (), s') ∧
    s' ≠ top_row_game ∧
    py_getitem2 (board s') 2 0 = Return "X" ∧
    last (move_history s') = Some (-1, 0, "X", 5%Q).
Proof.
  assert (wf_board (board top_row_game)) as Hwf
    by apply (reachable_inv 3 _ reachable_top_row_game).
  assert (game_over top_row_game = false) as Hrun by closed.
  assert (current_player top_row_game = "X") as Hcp by closed.
  split_and!.
  - destruct (make_move_out_of_range 3 top_row_game 3 0 5%Q ltac:(lia))
      as (_ & Hraise & _).
    apply Hraise; [exact Hrun | exact Hwf | lia].
  - destruct (make_move_out_of_range 3 (exec (make_move 0 2 5%Q) top_row_game)
                3 0 6%Q ltac:(lia)) as (Hover & _).
    apply Hover. closed.
  - destruct (make_move_out_of_range 3 top_row_game (-3) (-3) 5%Q ltac:(lia))
      as (_ & _ & Halias & _).
    destruct (Halias Hrun Hwf ltac:(lia) ltac:(lia)) as (_ & _ & _ & Hnoop).
    apply Hnoop. vm_compute. discriminate.
  - destruct (make_move_out_of_range 3 top_row_game (-1) 0 5%Q ltac:(lia))
      as (_ & _ & _ & Hempty).
    destruct (Hempty Hrun reachable_top_row_game ltac:(lia) ltac:(lia))
      as [_ Hmade].
    destruct (Hmade ltac:(closed)) as (b1 & s' & _ & _ & Hmove & Hne & Hh & Hread).
    destruct (Hread ltac:(lia)) as [_ Hread'].
    rewrite Hcp in Hread'. rewrite Hcp in Hh.
    exists s'. split_and!; [exact Hmove | exact Hne | exact Hread' |].
    destruct Hh as [-> | ->]; closed.
Defined.

(** C2, as stated, fails: on a running game a row of 3 raises
    [IndexError], and a row of -1 places a mark in the bottom row. *)
Lemma make_move_out_of_range_counterexample :
  make_move 3 0 0%Q initial_session = (Raise IndexError, initial_session) ∧
  make_move (-1) 0 0%Q initial_session
  = (Return (),
     SessionState [[""; ""; ""]; [""; ""; ""]; ["X"; ""; ""]]
       [(-1, 0, "X", 0%Q)] "O" false None 3).
Proof. split; closed. Qed.

Lemma winner_decided_after_eviction_witness :
  ∃ s' : session_state,
    make_move 0 2 5%Q top_row_game = (Return (), s') ∧
    winner s' = Some "X" ∧ game_status s' = Won (Some "X") ∧
    is_board_full (board s') = false ∧
    make_move 2 2 6%Q s' = (Return (), s').
Proof.
  destruct (winner_decided_after_eviction 3 top_row_game 0 2 5%Q
              reachable_top_row_game legal_top_row_game)
    as (s1 & s' & Hpv & _ & Hrun & Hb & _ & _ & _ & Hwon).
  vm_compute in Hpv. injection Hpv as <-.
  destruct (Hwon "X" ltac:(closed)) as (_ & Hw & _ & Hst & Hlock).
  exists s'. split_and!; [exact Hrun | exact Hw | exact Hst | | apply Hlock].
  rewrite Hb. closed.
Defined.

Lemma marks_bounded_witness :
  Z.of_nat (count_nonempty (board (exec (make_move 2 2 5%Q) evicting_game)))
  ≤ 2 * 2.
Proof.
  apply (marks_bounded 2); [lia|].
  apply reach_move, reachable_evicting_game.
Defined.

Lemma turn_alternates_witness :
  ∃ s' : session_state,
    make_move 2 2 5%Q evicting_game = (Return (), s') ∧
    current_player evicting_game = "X" ∧ current_player s' = "O".
Proof.
  destruct (turn_alternates 2 evicting_game 2 2 5%Q
              reachable_evicting_game legal_evicting_game)
    as (_ & s' & Hrun & _ & Hturn).
  exists s'. split; [exact Hrun|].
  assert (game_over s' = false) as Hgo.
  { pose proof Hrun as Hrun'. vm_compute in Hrun'. injection Hrun' as <-.
    reflexivity. }
  destruct (Hturn Hgo) as (_ & _ & [[HX HO] | [HO _]]); [by split|].
  vm_compute in HO. discriminate HO.
Defined.

Lemma tie_when_board_full_witness :
  ∃ s' : session_state,
    make_move 2 2 9%Q draw_game = (Return (), s') ∧
    is_board_full (board s') = true ∧ game_status s' = Tied.
Proof.
  destruct tie_when_board_full as (_ & Htie & _).
  destruct (Htie 5 draw_game 2 2 9%Q reachable_draw_game legal_draw_game)
    as (s1 & s' & Hpv & Hrun & Hb & Hfull).
  vm_compute in Hpv. injection Hpv as <-.
  destruct (Hfull ltac:(closed) ltac:(closed)) as (_ & _ & Hst).
  exists s'. split_and!; [exact Hrun | rewrite Hb; closed | exact Hst].
Defined.

Lemma board_matches_history_witness :
  NoDup ((λ m : move, (move_row m, move_col m)) <$> move_history evicting_game) ∧
  count_nonempty (board evicting_game) = length (move_history evicting_game).
Proof.
  destruct (board_matches_history 2 evicting_game reachable_evicting_game)
    as (_ & _ & Hnd & _ & Hcount).
  split; [exact Hnd | exact Hcount].
Defined.

Lemma tie_unreachable_witness :
  is_board_full (board (play draw_clicks (exec (new_game 3) initial_session)))
  = false ∧
  game_status (play draw_clicks (exec (new_game 3) initial_session)) ≠ Tied.
Proof.
  destruct (tie_unreachable 3
              (play draw_clicks (exec (new_game 3) initial_session))
              ltac:(lia)
              (reachable_play 3 _ _ (reach_new 3 initial_session)))
    as (_ & Hnf & Hnt & _).
  split; [exact Hnf | exact Hnt].
Defined.

(** * More of the engine and of the page *)

(** ** Whose record is last *)

Lemma alternating_snoc (h : list move) (m : move) :
  alternating h →
  (∀ m0, last h = Some m0 → move_player m0 ≠ move_player m) →
  alternating (h ++ [m]).
Proof.
  intros Halt Hlast i a b Ha Hb.
  destruct (decide (S i < length h)%nat) as [Hlt|Hge].
  - rewrite lookup_app_l in Ha by lia. rewrite lookup_app_l in Hb by done.
    by apply (Halt i).
  - assert (S i = length h) as Hi.
    { apply lookup_lt_Some in Hb. rewrite length_app in Hb. simpl in Hb. lia. }
    rewrite lookup_app_l in Ha by lia.
    rewrite Hi, lookup_app_r, Nat.sub_diag in Hb by lia. injection Hb as <-.
    apply Hlast. by rewrite last_lookup, <- Hi.
Qed.

Lemma alternating_tail (m : move) (h : list move) :
  alternating (m :: h) → alternating h.
Proof. intros Halt i a b Ha Hb. by apply (Halt (S i)). Qed.

Lemma last_vanished_placed (row col : Z) (now : timestamp) (s : session_state)
    (m : move) :
  last (move_history (vanished (placed row col now s))) = Some m →
  m = (row, col, current_player s, now).
Proof.
  destruct (vanished_placed row col now s)
    as [(_ & _ & ->) | (_ & old & rest & Happ & _ & ->)].
  - rewrite last_snoc. by intros [= <-].
  - intros Hlast.
    assert (last (old :: rest) = Some m) as Hl.
    { destruct rest; [done|]. by rewrite last_cons_cons. }
    rewrite <- Happ, last_snoc in Hl. by injection Hl as <-.
Qed.

Lemma reachable_turns (v : Z) (s : session_state) :
  reachable v s →
  alternating (move_history s) ∧
  ∀ m, last (move_history s) = Some m →
       if game_over s then move_player m = current_player s
       else move_player m ≠ current_player s.
Proof.
  induction 1 as [s0 | s row col now Hreach [IHalt IHlast]].
  - rewrite exec_new_game. cbn [move_history game_over]. split; [|done].
    intros i a b Ha. by rewrite lookup_nil in Ha.
  - destruct (reachable_inv v s Hreach) as [Hinv _].
    destruct (decide (legal s row col)) as [Hlegal|Hn];
      [| by rewrite make_move_illegal].
    unfold exec. rewrite make_move_legal_inv by done. cbn [snd].
    destruct (settled_keeps (vanished (placed row col now s))) as (_ & Hh & _).
    rewrite Hh. split.
    + assert (alternating (move_history s ++ [(row, col, current_player s, now)]))
        as Happ.
      { apply alternating_snoc; [done|]. intros m0 Hm0.
        specialize (IHlast m0 Hm0). by rewrite (proj1 Hlegal) in IHlast. }
      destruct (vanished_placed row col now s)
        as [(_ & _ & ->) | (_ & old & rest & Heq & _ & ->)]; [done|].
      rewrite Heq in Happ. by apply alternating_tail in Happ.
    + intros m ->%last_vanished_placed.
      destruct (vanished_other (placed row col now s)) as (Hp & Hgo & _ & _).
      change (current_player (placed row col now s)) with (current_player s) in Hp.
      change (game_over (placed row col now s)) with (game_over s) in Hgo.
      rewrite (proj1 Hlegal) in Hgo.
      change (move_player (row, col, current_player s, now))
        with (current_player s).
      unfold settled.
      destruct (first_win _ _); [exact (eq_sym Hp)|].
      destruct (is_board_full _); [exact (eq_sym Hp)|].
      cbn [game_over current_player set_current_player].
      rewrite Hgo, Hp.
      by destruct (inv_player _ Hinv) as [-> | ->].
Qed.

(** ** The stored verdict and the board *)

(** X1: in every reachable state the stored status is the one the board
    gives: [check_winner] returns without raising, a mark it returns is the
    stored winner, and without a winner the game is tied exactly when the
    board is full and in progress otherwise; a running game stores no
    winner. *)
Theorem status_follows_board (v : Z) (s : session_state) :
  reachable v s →
  ∃ r : option string,
    check_winner (board s) = Return r ∧
    game_status s
    = match r with
      | Some w => Won (Some w)
      | None => if is_board_full (board s) then Tied else InProgress
      end ∧
    (game_over s = false → winner s = None) ∧
    (∀ w, r = Some w → winner s = Some w ∧ game_over s = true ∧ is_mark w).
Proof.
  intros Hreach. destruct (reachable_inv v s Hreach) as [Hinv _].
  destruct (reachable_verdict v s Hreach) as (Hrun & Hover & _).
  exists (first_win (board s) winning_lines).
  split; [apply check_winner_first_win, Hinv|].
  unfold game_status. destruct (game_over s) eqn:Hgo.
  - destruct (Hover eq_refl) as [(Htie & -> & ->) | [Hw ->]].
    + rewrite Htie. by split_and!.
    + rewrite Hw. pose proof (inv_player _ Hinv) as Hmk.
      split_and!; [| done |].
      * rewrite bool_decide_eq_false_2; [done|].
        intros [= Heq]. rewrite Heq in Hmk. by destruct Hmk.
      * by intros w [= <-].
  - destruct (Hrun eq_refl) as (Hw & -> & ->). by split_and!.
Qed.

Lemma line_wins_first_win (b : board_t) (ls : list line) (l : line) :
  l ∈ ls → line_wins b l = true → is_Some (first_win b ls).
Proof.
  intros Hl Hwin. destruct (first_win b ls) eqn:E; [by eexists|].
  by rewrite (first_win_None_all _ _ E l Hl) in Hwin.
Qed.

(** X2: the winner is the player who moved last.  In every reachable state
    each winning line on the board carries the mark of [current_player],
    which the winning move does not hand over; so when the status is won it
    is won by [current_player], whose record is the newest of the history,
    and the order in which [check_winner] tries the lines cannot change its
    answer. *)
Theorem winner_is_last_mover (v : Z) (s : session_state) :
  reachable v s →
  (∀ l : line, l ∈ winning_lines → line_wins (board s) l = true →
     at_pos (board s) l.1.1 = current_player s ∧
     game_status s = Won (Some (current_player s))) ∧
  (∀ w : option string, game_status s = Won w →
     w = Some (current_player s) ∧
     ∀ m : move, last (move_history s) = Some m →
       move_player m = current_player s).
Proof.
  intros Hreach. destruct (reachable_inv v s Hreach) as [Hinv _].
  destruct (reachable_verdict v s Hreach) as (Hrun & Hover & Hlines).
  destruct (reachable_turns v s Hreach) as [_ Hlast].
  assert (bool_decide (Some (current_player s) = Some "Tie") = false) as Hnt.
  { apply bool_decide_eq_false_2. intros [= Heq].
    pose proof (inv_player _ Hinv) as Hmk. rewrite Heq in Hmk. by destruct Hmk. }
  split.
  - intros l Hl Hwin. split; [by apply Hlines|].
    destruct (line_wins_first_win _ _ _ Hl Hwin) as [w Hw].
    unfold game_status. destruct (game_over s) eqn:Hgo.
    + destruct (Hover eq_refl) as [(_ & Hnone & _) | [Hwinner _]]; [congruence|].
      by rewrite Hwinner, Hnt.
    + destruct (Hrun eq_refl) as (_ & Hnone & _). congruence.
  - intros w. unfold game_status. destruct (game_over s) eqn:Hgo; [|done].
    destruct (Hover eq_refl) as [(Htie & _) | [Hwinner _]].
    + by rewrite Htie.
    + rewrite Hwinner, Hnt. intros [= <-]. split; [done|].
      intros m Hm. by apply Hlast in Hm.
Qed.

(** ** When a call changes the store *)

(** X3: on a reachable state [make_move] changes the store exactly when the
    call is legal (game running, addressed cell empty); it raises exactly
    when the game is running and an index is outside [-3,2], and then the
    store is as before; otherwise it returns. *)
Theorem make_move_changes_iff_legal (v : Z) (s : session_state)
    (row col : Z) (now : timestamp) :
  reachable v s →
  (legal s row col ↔ exec (make_move row col now) s ≠ s) ∧
  (make_move row col now s = (Raise IndexError, s) ↔
   game_over s = false ∧ ¬ (-3 ≤ row ≤ 2 ∧ -3 ≤ col ≤ 2)) ∧
  ((∃ s', make_move row col now s = (Return (), s')) ∨
   make_move row col now s = (Raise IndexError, s)).
Proof.
  intros Hreach. destruct (reachable_inv v s Hreach) as [Hinv _].
  pose proof (bh_wf _ _ (inv_bh _ Hinv)) as Hwf.
  assert (legal s row col → exec (make_move row col now) s ≠ s) as Hchange.
  { intros Hlegal.
    destruct (legal_move_run row col now s Hinv Hlegal)
      as (s1 & s' & _ & Hs' & _ & Hp & Hgo1 & _ & _ & Hmove).
    unfold exec. rewrite Hmove. cbn [snd]. intros ->.
    destruct (settled_changes s1 Hgo1) as [Hover | Hturn].
    - rewrite Hp. apply Hinv.
    - rewrite <- Hs' in Hover. destruct Hlegal. congruence.
    - rewrite <- Hs', Hp in Hturn. done. }
  split_and!.
  - split; [done|]. intros Hne.
    destruct (decide (legal s row col)) as [|Hn]; [done|].
    by rewrite make_move_illegal in Hne.
  - split.
    + intros Hraise.
      destruct (game_over s) eqn:Hgo;
        [by rewrite make_move_over in Hraise|].
      split; [done|]. intros [Hr Hc].
      assert (valid row ∧ valid col) as [Hvr Hvc] by (unfold valid; lia).
      pose proof (py_getitem2_valid _ _ _ Hwf Hvr Hvc) as Hget.
      destruct (decide (cell (board s) (norm row) (norm col) = "")) as [He|He].
      * rewrite He in Hget.
        rewrite (make_move_legal_inv row col now s Hinv (conj Hgo Hget)) in Hraise.
        done.
      * by rewrite (make_move_occupied _ _ _ _ _ Hgo Hget He) in Hraise.
    + intros [Hgo Hn]. apply make_move_raises; [done..|]. unfold valid. lia.
  - destruct (game_over s) eqn:Hgo;
      [left; exists s; by apply make_move_over|].
    destruct (decide (valid row ∧ valid col)) as [[Hvr Hvc]|Hn].
    + left. pose proof (py_getitem2_valid _ _ _ Hwf Hvr Hvc) as Hget.
      destruct (decide (cell (board s) (norm row) (norm col) = "")) as [He|He].
      * rewrite He in Hget. eexists.
        apply (make_move_legal_inv row col now s Hinv (conj Hgo Hget)).
      * exists s. by apply (make_move_occupied _ _ _ _ _ Hgo Hget He).
    + right. by apply make_move_raises.
Qed.

(** X4: a legal move touches at most two cells.  Every cell other than the
    one played and the one of the evicted record (the oldest, when the
    history outgrows the limit) reads as before; with a limit of at least 1
    the cell played holds the mover's mark afterwards; the limit itself is
    not changed. *)
Theorem move_changes_two_cells (v : Z) (s : session_state) (row col : Z)
    (now : timestamp) :
  reachable v s → legal s row col →
  ∃ s' : session_state,
    make_move row col now s = (Return (), s') ∧
    (∀ i j : Z, 0 ≤ i ≤ 2 → 0 ≤ j ≤ 2 →
       (Z.to_nat i, Z.to_nat j) ≠ (norm row, norm col) →
       (∀ old : move,
          2 * v < Z.of_nat (length (move_history s)) + 1 →
          head (move_history s) = Some old →
          move_pos old ≠ (Z.to_nat i, Z.to_nat j)) →
       py_getitem2 (board s') i j = py_getitem2 (board s) i j) ∧
    (1 ≤ v → py_getitem2 (board s') row col = Return (current_player s)) ∧
    vanish_after s' = vanish_after s.
Proof.
  intros Hreach Hlegal. destruct (reachable_inv v s Hreach) as [Hinv Hv].
  pose proof (bh_wf _ _ (inv_bh _ Hinv)) as Hwf.
  destruct (legal_move_run row col now s Hinv Hlegal)
    as (s1 & s' & Hs1 & Hs' & Hbh & _ & _ & _ & _ & Hmove).
  destruct (settled_keeps s1) as (Hb & _ & Hva).
  destruct (vanished_other (placed row col now s)) as (_ & _ & _ & Hva1).
  pose proof (proj2 Hlegal) as Hget.
  destruct (py_getitem2_Return _ _ _ _ Hwf Hget) as (Hr & Hc & _).
  exists s'. split_and!; [done | | |].
  - intros i j Hi Hj Hplayed Hevicted.
    assert (valid i ∧ valid j) as [Hvi Hvj] by (unfold valid; lia).
    rewrite Hs', Hb, !py_getitem2_valid, !norm_id by (done || lia || apply Hbh).
    f_equal. rewrite Hs1.
    destruct (vanished_placed row col now s)
      as [(_ & -> & _) | (Hlong & old & rest & Happ & -> & _)].
    + by apply cell_set_cell_ne.
    + rewrite cell_set_cell_ne; [by apply cell_set_cell_ne|].
      rewrite <- surjective_pairing.
      rewrite length_app in Hlong. simpl in Hlong.
      destruct (move_history s) as [|m h] eqn:Hh; simpl in Happ;
        injection Happ as <- _.
      * done.
      * apply Hevicted; [lia | done].
  - intros Hv1. rewrite Hs', Hb, py_getitem2_valid by (done || apply Hbh).
    f_equal. rewrite Hs1. apply placed_mark_stays; [done..|lia].
  - by rewrite Hs', Hva, Hs1, Hva1.
Qed.

(** ** The buttons of the board *)

Lemma row_has_empty_lookup (row : list string) :
  row_has_empty row = true → ∃ j : nat, row !! j = Some "".
Proof.
  induction row as [|c row IH]; simpl; [done|].
  destruct (String.eqb_spec c "") as [->|_].
  - intros _. by exists 0%nat.
  - intros [j Hj]%IH. by exists (S j).
Qed.

Lemma not_full_lookup (b : board_t) :
  is_board_full b = false →
  ∃ (i : nat) (row : list string),
    b !! i = Some row ∧ row_has_empty row = true.
Proof.
  induction b as [|row b IH]; simpl; [done|].
  destruct (row_has_empty row) eqn:E.
  - intros _. by exists 0%nat, row.
  - intros (i & row' & Hi & He)%IH. by exists (S i), row'.
Qed.

Lemma not_full_free_cell (b : board_t) :
  wf_board b → is_board_full b = false →
  ∃ i j : nat, (i < 3)%nat ∧ (j < 3)%nat ∧ cell b i j = "".
Proof.
  intros [Hlen Hrows] (i & row & Hi & (j & Hj)%row_has_empty_lookup)%not_full_lookup.
  exists i, j. split_and!.
  - apply lookup_lt_Some in Hi. lia.
  - rewrite Forall_lookup in Hrows. specialize (Hrows i row Hi).
    apply lookup_lt_Some in Hj. lia.
  - unfold cell. by rewrite Hi; simpl; rewrite Hj.
Qed.

Lemma range3_spec (i : Z) : i ∈ [0; 1; 2] ↔ 0 ≤ i ≤ 2.
Proof.
  split.
  - intros H. repeat (apply elem_of_cons in H as [-> | H]; [lia|]).
    by apply elem_of_nil in H.
  - intros H.
    assert (i = 0 ∨ i = 1 ∨ i = 2) as [-> | [-> | ->]] by lia;
      repeat constructor.
Qed.

(** X5: on a reachable state the [disabled] flag of each of the nine
    buttons is computed without an error; a button is enabled exactly when
    [make_move] on its cell is legal, and a disabled one would be a no-op.
    While the game is running at least one button is enabled. *)
Theorem buttons_match_guard (v : Z) (s : session_state) :
  reachable v s →
  (∀ row col : Z, row ∈ [0; 1; 2] → col ∈ [0; 1; 2] →
     ∃ d : bool,
       button_disabled row col s = (Return d, s) ∧
       (d = false ↔ legal s row col) ∧
       (d = true → ∀ now, make_move row col now s = (Return (), s))) ∧
  (game_over s = false →
   ∃ row col : Z,
     row ∈ [0; 1; 2] ∧ col ∈ [0; 1; 2] ∧
     button_disabled row col s = (Return false, s)).
Proof.
  intros Hreach. destruct (reachable_inv v s Hreach) as [Hinv _].
  pose proof (bh_wf _ _ (inv_bh _ Hinv)) as Hwf.
  assert (∀ row col : Z, 0 ≤ row ≤ 2 → 0 ≤ col ≤ 2 →
            py_getitem2 (board s) row col
            = Return (cell (board s) (Z.to_nat row) (Z.to_nat col)) ∧
            button_disabled row col s
            = (Return (game_over s
                       || negb (String.eqb
                                  (cell (board s) (Z.to_nat row) (Z.to_nat col))
                                  "")), s)) as Hflag.
  { intros row col Hr Hc.
    assert (valid row ∧ valid col) as [Hvr Hvc] by (unfold valid; lia).
    pose proof (py_getitem2_valid _ _ _ Hwf Hvr Hvc) as Hget.
    rewrite !norm_id in Hget by lia. split; [done|].
    unfold button_disabled, mbind, M_bind, get, lift. by rewrite Hget. }
  split.
  - intros row col Hr%range3_spec Hc%range3_spec.
    destruct (Hflag row col Hr Hc) as [Hget ->]. eexists. split; [done|].
    unfold legal. rewrite Hget.
    destruct (game_over s) eqn:Hgo; simpl.
    + split; [|intros _ now; by apply make_move_over].
      split; [done | by intros [? _]].
    + destruct (String.eqb_spec (cell (board s) (Z.to_nat row) (Z.to_nat col)) "")
        as [He|He]; simpl.
      * split; [|done]. rewrite He. by split.
      * split; [split; [done | intros [_ [= ?]]; done]|].
        intros _ now. by apply (make_move_occupied _ _ _ _ _ Hgo Hget).
  - intros Hgo.
    destruct (reachable_verdict v s Hreach) as (Hrun & _ & _).
    destruct (Hrun Hgo) as (_ & _ & Hnf).
    destruct (not_full_free_cell _ Hwf Hnf) as (i & j & Hi & Hj & He).
    exists (Z.of_nat i), (Z.of_nat j).
    split_and!; [apply range3_spec; lia.. |].
    destruct (Hflag (Z.of_nat i) (Z.of_nat j)) as [_ ->]; [lia..|].
    by rewrite !Nat2Z.id, He, Hgo.
Qed.

(** ** Sessions through the page *)

Lemma exec_reset_game (s : session_state) :
  exec reset_game s = exec (new_game (vanish_after s)) s.
Proof. reflexivity. Qed.

Lemma exec_select_vanish (vanish_turns : Z) (s : session_state) :
  exec (select_vanish vanish_turns) s
  = if decide (vanish_turns = vanish_after s) then s
    else exec (new_game vanish_turns) s.
Proof.
  unfold exec, select_vanish, mbind, M_bind, get.
  case_decide as Heq.
  - by rewrite bool_decide_eq_false_2 by (by intros ?).
  - by rewrite bool_decide_eq_true_2.
Qed.

(** X6: whatever the player does on the page (pick a limit from the select
    box, press "New Game", press an enabled cell button), the store is one
    the engine reaches from a new game with the limit it holds, and that
    limit is 2, 3, 4 or 5.  So no more than twice the limit marks are on
    the board, and [make_move] on any of the nine cells returns without
    raising. *)
Theorem ui_sessions_are_engine_sessions (s : session_state) :
  ui_reachable s →
  vanish_after s ∈ [2; 3; 4; 5] ∧
  reachable (vanish_after s) s ∧
  Z.of_nat (count_nonempty (board s)) ≤ 2 * vanish_after s ∧
  ∀ (row col : Z) (now : timestamp),
    row ∈ [0; 1; 2] → col ∈ [0; 1; 2] →
    ∃ s' : session_state, make_move row col now s = (Return (), s').
Proof.
  intros Hui.
  assert (vanish_after s ∈ [2; 3; 4; 5] ∧ reachable (vanish_after s) s)
    as [Hlimit Hreach].
  { induction Hui as [| s vt Hvt Hui [IHl IHr] | s Hui [IHl IHr]
                      | s row col now Hui [IHl IHr] Hrow Hcol Hen].
    - split; [repeat constructor|]. apply (reach_new 3 initial_session).
    - rewrite exec_select_vanish. case_decide as Heq; [done|].
      split; [done|]. apply reach_new.
    - rewrite exec_reset_game. split; [done|]. apply reach_new.
    - destruct (reachable_inv _ _ IHr) as [Hinv _].
      rewrite (vanish_after_exec_make_move row col now s Hinv).
      split; [done|]. by apply reach_move. }
  destruct (reachable_inv _ _ Hreach) as [Hinv _].
  pose proof (bh_wf _ _ (inv_bh _ Hinv)) as Hwf.
  split_and!; [done | done | |].
  - destruct (reachable_count _ _ Hreach) as [-> Hlen].
    assert (2 ≤ vanish_after s).
    { repeat (apply elem_of_cons in Hlimit as [-> | Hlimit]; [lia|]).
      by apply elem_of_nil in Hlimit. }
    lia.
  - intros row col now Hr%range3_spec Hc%range3_spec.
    destruct (game_over s) eqn:Hgo; [exists s; by apply make_move_over|].
    assert (valid row ∧ valid col) as [Hvr Hvc] by (unfold valid; lia).
    pose proof (py_getitem2_valid _ _ _ Hwf Hvr Hvc) as Hget.
    destruct (decide (cell (board s) (norm row) (norm col) = "")) as [He|He].
    + rewrite He in Hget. eexists.
      apply (make_move_legal_inv row col now s Hinv (conj Hgo Hget)).
    + exists s. by apply (make_move_occupied _ _ _ _ _ Hgo Hget He).
Qed.

(** ** The move-history panel *)

Lemma reachable_history_bound (v : Z) (s : session_state) :
  reachable v s → move_history s ≠ [] →
  vanish_after s = v ∧
  1 ≤ Z.of_nat (length (move_history s)) ≤ 2 * v.
Proof.
  intros Hreach Hne. destruct (reachable_inv v s Hreach) as [Hinv Hv].
  pose proof (inv_len _ Hinv) as Hlen. rewrite Hv in Hlen.
  split; [done|]. destruct (move_history s); [done|]. simpl in *. lia.
Qed.

(** X7: in every reachable state the countdown shown for a record of the
    history is at least 1 and at most twice the limit.  So the panel writes
    the "vanishes in k moves" line for every record and never the
    "will vanish next" line. *)
Theorem history_panel_never_warns (v : Z) (s : session_state) :
  reachable v s →
  (∀ (i : nat) (m : move), move_history s !! i = Some m →
     1 ≤ vanish_in s i ≤ 2 * v) ∧
  history_panel s
  = match move_history s with
    | [] => []
    | _ :: _ =>
        "Recent moves (oldest will vanish first):"
        :: imap (λ (i : nat) (m : move),
                   "Move " +:+ pretty (Z.of_nat i + 1) +:+ ": Player "
                   +:+ move_player m
                   +:+ " → Row " +:+ pretty (move_row m + 1)
                   +:+ ", Col " +:+ pretty (move_col m + 1)
                   +:+ " (vanishes in " +:+ pretty (vanish_in s i)
                   +:+ " moves)")
             (move_history s)
    end.
Proof.
  intros Hreach.
  assert (∀ (i : nat) (m : move), move_history s !! i = Some m →
            1 ≤ vanish_in s i ≤ 2 * v) as Hpos.
  { intros i m Hi.
    destruct (reachable_history_bound v s Hreach) as [Hv Hlen].
    { intros Hnil. by rewrite Hnil in Hi. }
    apply lookup_lt_Some in Hi. unfold vanish_in. rewrite Hv. lia. }
  split; [done|]. unfold history_panel.
  destruct (move_history s) as [|m0 h] eqn:Hh; [done|].
  f_equal. apply imap_ext. intros i m Hi. unfold history_line.
  destruct (Hpos i m Hi) as [Hge _].
  by destruct (Z.gtb_spec (vanish_in s i) 0); [|lia].
Qed.

(** X8: the countdown is exact.  A legal move lowers the countdown of
    every record by one and keeps the record, except for a record whose
    countdown is 1: that one is gone from the history afterwards and its
    cell reads as empty. *)
Theorem vanish_in_counts_down (v : Z) (s : session_state) (row col : Z)
    (now : timestamp) (i : nat) (m : move) :
  reachable v s → legal s row col → move_history s !! i = Some m →
  ∃ s' : session_state,
    make_move row col now s = (Return (), s') ∧
    ((vanish_in s i = 1 ∧ (m ∉ move_history s') ∧
      py_getitem2 (board s') (move_row m) (move_col m) = Return "") ∨
     (1 < vanish_in s i ∧
      ∃ i' : nat,
        move_history s' !! i' = Some m ∧
        vanish_in s' i' = vanish_in s i - 1)).
Proof.
  intros Hreach Hlegal Hi. destruct (reachable_inv v s Hreach) as [Hinv Hv].
  pose proof (inv_bh _ Hinv) as Hbh0.
  destruct (reachable_history_bound v s Hreach) as [_ Hlen].
  { intros Hnil. by rewrite Hnil in Hi. }
  destruct (legal_move_run row col now s Hinv Hlegal)
    as (s1 & s' & Hs1 & Hs' & Hbh & _ & _ & _ & _ & Hmove).
  destruct (settled_keeps s1) as (Hb & Hh & Hva).
  destruct (vanished_other (placed row col now s)) as (_ & _ & _ & Hva1).
  assert (vanish_after s' = v) as Hv'
    by (rewrite Hs', Hva, Hs1, Hva1; exact Hv).
  pose proof (lookup_lt_Some _ _ _ Hi) as Hilt.
  exists s'. split; [done|].
  unfold vanish_in. rewrite Hs', Hh, Hb, <- Hs', Hv', Hv, Hs1.
  destruct (vanished_placed row col now s)
    as [(Hshort & _ & ->) | (Hlong & old & rest & Happ & -> & ->)].
  - rewrite length_app, Hv in Hshort. simpl in Hshort.
    right. split; [lia|]. exists i. split; [by rewrite lookup_app_l|].
    rewrite length_app. simpl. lia.
  - rewrite length_app, Hv in Hlong. simpl in Hlong.
    destruct (move_history s) as [|m0 h] eqn:Hm; [done|].
    simpl in Happ. injection Happ as <- <-. simpl in Hlen, Hlong, Hilt.
    destruct i as [|k]; simpl in Hi.
    + injection Hi as <-. left. split; [simpl; lia|].
      pose proof (bh_nodup _ _ Hbh0) as Hnd. rewrite fmap_cons in Hnd.
      apply NoDup_cons in Hnd as [Hnotin _].
      destruct (bh_marks _ _ Hbh0 m0) as [Hat Hmk]; [left|].
      pose proof (bh_valid _ _ Hbh0) as Hval.
      apply Forall_cons in Hval as [[Hvr Hvc] _].
      split.
      * intros [Hin | ->%list_elem_of_singleton]%elem_of_app.
        -- apply Hnotin, list_elem_of_fmap. eauto.
        -- destruct Hlegal as [_ Hget].
           destruct (py_getitem2_Return _ _ _ _ (bh_wf _ _ Hbh0) Hget)
             as (_ & _ & Hempty).
           unfold at_pos, move_pos, move_row, move_col, move_player in Hat.
           simpl in Hat. apply is_mark_nonempty in Hmk.
           unfold move_player in Hmk. simpl in Hmk. congruence.
      * rewrite py_getitem2_valid; [| apply wf_set_cell, wf_set_cell, Hbh0 | done..].
        f_equal. apply cell_set_cell_eq;
          [apply wf_set_cell, Hbh0 | by apply norm_lt..].
    + right. split; [simpl; lia|]. exists k.
      apply lookup_lt_Some in Hi as Hk.
      split; [by rewrite lookup_app_l|].
      rewrite length_app. simpl. lia.
Qed.

(** ** The age of a cell's move *)

Lemma find_age_lookup (l : list move) (k : Z) (j : nat) (m : move) :
  NoDup ((λ m : move, (move_row m, move_col m)) <$> l) →
  l !! j = Some m →
  find_age l k (move_row m) (move_col m) = k + Z.of_nat j.
Proof.
  revert k j. induction l as [|a l IH]; intros k j Hnd Hj; [done|].
  rewrite fmap_cons in Hnd. apply NoDup_cons in Hnd as [Hnotin Hnd].
  destruct j as [|j]; simpl in Hj; simpl.
  - injection Hj as ->. rewrite !Z.eqb_refl. simpl. lia.
  - destruct (Z.eqb_spec (move_row a) (move_row m)) as [Hr|Hr];
      destruct (Z.eqb_spec (move_col a) (move_col m)) as [Hc|Hc]; simpl;
      try (rewrite (IH (k + 1) j Hnd Hj); lia).
    exfalso. apply Hnotin. rewrite Hr, Hc.
    apply list_elem_of_fmap. exists m. split; [done|].
    by apply list_elem_of_lookup_2 in Hj.
Qed.

Lemma find_age_absent (l : list move) (k row col : Z) :
  (∀ m, m ∈ l → (move_row m, move_col m) ≠ (row, col)) →
  find_age l k row col = 0.
Proof.
  revert k. induction l as [|a l IH]; intros k Habs; [done|]. simpl.
  destruct (Z.eqb_spec (move_row a) row) as [Hr|Hr];
    destruct (Z.eqb_spec (move_col a) col) as [Hc|Hc]; simpl;
    try (apply IH; intros m Hm; apply Habs; by right).
  exfalso. apply (Habs a); [left | by rewrite Hr, Hc].
Qed.

(** X9: the age loop of [get_cell_style] finds, for the cell of a recorded
    move, the number of moves recorded after it: 0 for the newest record,
    one more for each older one, and always less than twice the limit; the
    countdown of the history panel is twice the limit minus this age.  For
    a row and column that no record carries it answers 0. *)
Theorem move_age_counts_from_newest (v : Z) (s : session_state) :
  reachable v s →
  (∀ (i : nat) (m : move), move_history s !! i = Some m →
     move_age s (move_row m) (move_col m)
     = Z.of_nat (length (move_history s)) - 1 - Z.of_nat i ∧
     0 ≤ move_age s (move_row m) (move_col m) < 2 * v ∧
     vanish_in s i = 2 * v - move_age s (move_row m) (move_col m)) ∧
  (∀ row col : Z,
     (∀ m : move, m ∈ move_history s → (move_row m, move_col m) ≠ (row, col)) →
     move_age s row col = 0).
Proof.
  intros Hreach. destruct (reachable_inv v s Hreach) as [Hinv Hv].
  split.
  - intros i m Hi.
    destruct (reachable_history_bound v s Hreach) as [_ Hlen].
    { intros Hnil. by rewrite Hnil in Hi. }
    pose proof (lookup_lt_Some _ _ _ Hi) as Hilt.
    assert (move_age s (move_row m) (move_col m)
            = Z.of_nat (length (move_history s)) - 1 - Z.of_nat i) as Hage.
    { unfold move_age.
      rewrite (find_age_lookup _ 0 (length (move_history s) - S i) m).
      - lia.
      - rewrite fmap_reverse, reverse_Permutation.
        apply (NoDup_fmap_1 (λ p : Z * Z, (norm p.1, norm p.2))).
        rewrite <- list_fmap_compose. apply (bh_nodup _ _ (inv_bh _ Hinv)).
      - rewrite reverse_lookup by lia.
        replace (length (move_history s) - S (length (move_history s) - S i))%nat
          with i by lia.
        done. }
    rewrite Hage. unfold vanish_in. rewrite Hv. lia.
  - intros row col Habs. unfold move_age. apply find_age_absent.
    intros m Hm. apply Habs. exact (proj1 (elem_of_reverse _ _) Hm).
Qed.

(** ** Marks of the two players *)

Lemma NoDup_fmap_filter {A B : Type} (f : A → B) (P : A → Prop)
    `{∀ x, Decision (P x)} (l : list A) :
  NoDup (f <$> l) → NoDup (f <$> filter P l).
Proof.
  induction l as [|x l IH]; [done|].
  rewrite fmap_cons. intros [Hnotin Hnd]%NoDup_cons.
  rewrite filter_cons. destruct (decide (P x)); [|by apply IH].
  rewrite fmap_cons. apply NoDup_cons. split; [|by apply IH].
  intros (y & Hy & [_ Hin]%list_elem_of_filter)%list_elem_of_fmap.
  apply Hnotin, list_elem_of_fmap. eauto.
Qed.

Lemma count_mark_history (b : board_t) (h : list move) (p : string) :
  board_hist_ok b h → p ≠ "" →
  count_mark p b = length (filter (λ m : move, move_player m = p) h).
Proof.
  intros Hok Hp.
  destruct (wf_board_cells b (bh_wf _ _ Hok))
    as (a & a0 & a1 & a2 & a3 & a4 & a5 & a6 & a7 & Hb).
  transitivity (length (filter (λ q : pos, at_pos b q = p) all_pos)).
  { rewrite Hb. unfold count_mark.
    exact (length_filter_fmap
             (at_pos [[a; a0; a1]; [a2; a3; a4]; [a5; a6; a7]])
             (λ c : string, c = p) all_pos). }
  rewrite <- (length_fmap move_pos (filter _ h)).
  apply Permutation_length, NoDup_Permutation.
  - apply NoDup_filter, NoDup_all_pos.
  - apply NoDup_fmap_filter, Hok.
  - intros [i j]. rewrite list_elem_of_filter, list_elem_of_fmap. split.
    + intros [Hat Hin]. destruct (all_pos_range _ Hin) as [Hi Hj].
      assert (cell b i j ≠ "") as Hocc by (unfold at_pos in Hat; simpl in Hat; congruence).
      pose proof (bh_cover _ _ Hok i j Hi Hj Hocc) as Hcov.
      apply list_elem_of_fmap in Hcov as (m & Heq & Hm).
      exists m. split; [done|]. apply list_elem_of_filter. split; [|done].
      destruct (bh_marks _ _ Hok m Hm) as [<- _]. by rewrite <- Heq.
    + intros (m & -> & [Hpl Hm]%list_elem_of_filter).
      destruct (bh_marks _ _ Hok m Hm) as [Hat _].
      split; [congruence|].
      pose proof (bh_valid _ _ Hok) as Hval. rewrite Forall_forall in Hval.
      destruct (Hval m Hm) as [Hr Hc]. unfold move_pos, all_pos.
      destruct (norm_cases _ Hr) as [-> | [-> | ->]],
               (norm_cases _ Hc) as [-> | [-> | ->]];
        repeat first [apply list_elem_of_here | apply list_elem_of_further].
Qed.

Lemma alternating_balanced (h : list move) :
  alternating h → Forall (λ m, is_mark (move_player m)) h →
  match h with
  | [] =>
      length (filter (λ m : move, move_player m = "X") h)
      = length (filter (λ m : move, move_player m = "O") h)
  | m :: _ =>
      if decide (move_player m = "X") then
        (length (filter (λ m : move, move_player m = "X") h)
         ≤ length (filter (λ m : move, move_player m = "O") h) + 1
         ≤ length (filter (λ m : move, move_player m = "X") h) + 1)%nat
      else
        (length (filter (λ m : move, move_player m = "O") h)
         ≤ length (filter (λ m : move, move_player m = "X") h) + 1
         ≤ length (filter (λ m : move, move_player m = "O") h) + 1)%nat
  end.
Proof.
  induction h as [|m h IH]; intros Halt Hmk; [done|].
  apply Forall_cons in Hmk as [Hm Hmk].
  specialize (IH (alternating_tail _ _ Halt) Hmk).
  assert (∀ m' : move, h !! 0%nat = Some m' → move_player m ≠ move_player m')
    as Hnext by (intros m' Hm'; by apply (Halt 0%nat)).
  rewrite !filter_cons.
  destruct Hm as [Hx | Ho].
  - rewrite Hx. rewrite decide_True by done.
    rewrite (decide_True (P := "X" = "X")) by done.
    rewrite (decide_False (P := "X" = "O")) by done. simpl.
    destruct h as [|m' h]; [simpl; lia|].
    specialize (Hnext m' eq_refl). rewrite Hx in Hnext.
    apply Forall_cons in Hmk as [[Hx' | Ho'] _]; [congruence|].
    rewrite decide_False in IH by congruence. lia.
  - rewrite Ho. rewrite decide_False by done.
    rewrite (decide_False (P := "O" = "X")) by done.
    rewrite (decide_True (P := "O" = "O")) by done. simpl.
    destruct h as [|m' h]; [simpl; lia|].
    specialize (Hnext m' eq_refl). rewrite Ho in Hnext.
    apply Forall_cons in Hmk as [[Hx' | Ho'] _]; [|congruence].
    rewrite decide_True in IH by done. lia.
Qed.

(** X10: the players' marks stay balanced.  In every reachable state the
    records of the history alternate between the two players, the newest
    being the winner's when the game is over and the other player's while
    it runs; and on the board neither ['X'] nor ['O'] has more than one
    mark more than the other. *)
Theorem marks_balanced (v : Z) (s : session_state) :
  reachable v s →
  alternating (move_history s) ∧
  (∀ m : move, last (move_history s) = Some m →
     if game_over s then move_player m = current_player s
     else move_player m ≠ current_player s) ∧
  (count_mark "X" (board s) ≤ count_mark "O" (board s) + 1)%nat ∧
  (count_mark "O" (board s) ≤ count_mark "X" (board s) + 1)%nat.
Proof.
  intros Hreach. destruct (reachable_inv v s Hreach) as [Hinv _].
  pose proof (inv_bh _ Hinv) as Hbh.
  destruct (reachable_turns v s Hreach) as [Halt Hlast].
  split; [done|]. split; [done|].
  rewrite !(count_mark_history _ _ _ Hbh) by done.
  assert (Forall (λ m, is_mark (move_player m)) (move_history s)) as Hmk.
  { apply Forall_forall. intros m Hm. by apply (bh_marks _ _ Hbh m Hm). }
  pose proof (alternating_balanced _ Halt Hmk) as Hbal.
  destruct (move_history s) as [|m h]; [simpl in *; lia|].
  destruct (decide (move_player m = "X")); lia.
Qed.

(** ** [check_winner] on any 3x3 board *)

Lemma first_win_all_None (b : board_t) (ls : list line) :
  (∀ l, l ∈ ls → line_wins b l = false) → first_win b ls = None.
Proof.
  induction ls as [|l0 ls IH]; simpl; intros Hall; [done|].
  rewrite (Hall l0) by left. apply IH. intros l Hl. apply Hall. by right.
Qed.

(** X11: on every board of three rows of three cells, reachable or not,
    [check_winner] returns without raising.  It returns [None] exactly when
    none of the eight lines has three equal non-empty cells; a mark it
    returns is non-empty and fills one of the eight lines. *)
Theorem check_winner_on_grid (b : board_t) :
  wf_board b →
  ∃ r : option string,
    check_winner b = Return r ∧
    (r = None ↔
     ∀ l : line, l ∈ winning_lines →
       ¬ (at_pos b l.1.1 ≠ "" ∧ at_pos b l.1.1 = at_pos b l.1.2 ∧
          at_pos b l.1.2 = at_pos b l.2)) ∧
    (∀ w : string, r = Some w →
       w ≠ "" ∧
       ∃ l : line, l ∈ winning_lines ∧
         at_pos b l.1.1 = w ∧ at_pos b l.1.2 = w ∧ at_pos b l.2 = w).
Proof.
  intros Hwf. exists (first_win b winning_lines).
  split; [by apply check_winner_first_win|]. split.
  - split.
    + intros Hnone l Hl (Hne & H12 & H23).
      pose proof (first_win_None_all _ _ Hnone l Hl) as Hlose.
      apply not_true_iff_false in Hlose. apply Hlose.
      apply wins3_spec. split_and!; congruence.
    + intros Hall. apply first_win_all_None. intros l Hl.
      apply not_true_iff_false. intros Hwin%wins3_spec.
      apply (Hall l Hl). tauto.
  - intros w Hw. split; [by apply first_win_nonempty in Hw|].
    apply first_win_Some in Hw as (l & Hl & Hwin%wins3_spec & Hat).
    exists l. split_and!; [done | done | |]; destruct Hwin as (_ & _ & _ & ? & ?);
      congruence.
Qed.

Lemma check_winner_on_grid_witness :
  ∃ r : option string,
    check_winner [["X"; "O"; "X"]; ["X"; "O"; "O"]; ["O"; "X"; "X"]] = Return r.
Proof.
  destruct (check_winner_on_grid
              [["X"; "O"; "X"]; ["X"; "O"; "O"]; ["O"; "X"; "X"]]
              (wf_board_grid _ _ _ _ _ _ _ _ _)) as (r & Hr & _).
  exists r. exact Hr.
Defined.

(** ** Instances on the worked games *)

Lemma status_follows_board_witness :
  check_winner (board (exec (make_move 0 2 5%Q) top_row_game))
  = Return (Some "X") ∧
  game_status (exec (make_move 0 2 5%Q) top_row_game) = Won (Some "X").
Proof.
  destruct (status_follows_board 3 _
              (reach_move 3 _ 0 2 5%Q reachable_top_row_game))
    as (r & Hr & Hst & _ & _).
  assert (check_winner (board (exec (make_move 0 2 5%Q) top_row_game))
          = Return (Some "X")) as Hc by closed.
  rewrite Hc in Hr. injection Hr as <-.
  split; [exact Hc | exact Hst].
Defined.

Lemma winner_is_last_mover_witness :
  at_pos (board (exec (make_move 0 2 5%Q) top_row_game)) (0, 0)%nat
  = current_player (exec (make_move 0 2 5%Q) top_row_game) ∧
  game_status (exec (make_move 0 2 5%Q) top_row_game)
  = Won (Some (current_player (exec (make_move 0 2 5%Q) top_row_game))).
Proof.
  destruct (winner_is_last_mover 3 _
              (reach_move 3 _ 0 2 5%Q reachable_top_row_game))
    as [Hlines _].
  apply (Hlines ((0, 0), (0, 1), (0, 2))%nat); [left | closed].
Defined.

Lemma make_move_changes_iff_legal_witness :
  legal top_row_game 0 2 ∧
  exec (make_move 0 2 5%Q) top_row_game ≠ top_row_game.
Proof.
  split; [exact legal_top_row_game|].
  apply (make_move_changes_iff_legal 3 top_row_game 0 2 5%Q
           reachable_top_row_game).
  exact legal_top_row_game.
Defined.

Lemma move_changes_two_cells_witness :
  ∃ s' : session_state,
    make_move 2 2 5%Q evicting_game = (Return (), s') ∧
    py_getitem2 (board s') 1 1 = py_getitem2 (board evicting_game) 1 1 ∧
    py_getitem2 (board s') 2 2 = Return (current_player evicting_game).
Proof.
  destruct (move_changes_two_cells 2 evicting_game 2 2 5%Q
              reachable_evicting_game legal_evicting_game)
    as (s' & Hmove & Hframe & Hmark & _).
  exists s'. split_and!; [exact Hmove | | apply Hmark; lia].
  apply Hframe; [lia | lia | discriminate |].
  intros old _ Hold. vm_compute in Hold. injection Hold as <-. discriminate.
Defined.

Lemma legal_top_row_corner : legal top_row_game 2 2.
Proof. split; closed. Qed.

Lemma buttons_match_guard_witness :
  button_disabled 2 2 top_row_game = (Return false, top_row_game).
Proof.
  destruct (buttons_match_guard 3 top_row_game reachable_top_row_game)
    as [Hflag _].
  destruct (Hflag 2 2 ltac:(repeat constructor) ltac:(repeat constructor))
    as (d & Hd & Hiff & _).
  rewrite (proj2 Hiff legal_top_row_corner) in Hd. exact Hd.
Defined.

Lemma ui_reachable_example :
  ui_reachable
    (exec (make_move 1 1 1%Q) (exec (select_vanish 2) initial_session)).
Proof.
  apply ui_cell; [| repeat constructor.. | closed].
  apply ui_select; [repeat constructor | apply ui_start].
Qed.

Lemma ui_sessions_are_engine_sessions_witness :
  vanish_after
    (exec (make_move 1 1 1%Q) (exec (select_vanish 2) initial_session))
  ∈ [2; 3; 4; 5] ∧
  reachable
    (vanish_after
       (exec (make_move 1 1 1%Q) (exec (select_vanish 2) initial_session)))
    (exec (make_move 1 1 1%Q) (exec (select_vanish 2) initial_session)).
Proof.
  destruct (ui_sessions_are_engine_sessions _ ui_reachable_example)
    as (Hlimit & Hreach & _).
  split; [exact Hlimit | exact Hreach].
Defined.

Lemma oldest_of_evicting_game :
  move_history evicting_game !! 0%nat = Some (0, 0, "X", 1%Q).
Proof. closed. Qed.

Lemma history_panel_never_warns_witness :
  1 ≤ vanish_in evicting_game 0 ≤ 2 * 2.
Proof.
  destruct (history_panel_never_warns 2 evicting_game reachable_evicting_game)
    as [Hpos _].
  exact (Hpos 0%nat _ oldest_of_evicting_game).
Defined.

Lemma vanish_in_counts_down_witness :
  ∃ s' : session_state,
    make_move 2 2 5%Q evicting_game = (Return (), s') ∧
    py_getitem2 (board s') 0 0 = Return "".
Proof.
  destruct (vanish_in_counts_down 2 evicting_game 2 2 5%Q 0 _
              reachable_evicting_game legal_evicting_game
              oldest_of_evicting_game)
    as (s' & Hmove & [(_ & _ & Hget) | (Hgt & _)]).
  - exists s'. split; [exact Hmove | exact Hget].
  - vm_compute in Hgt. discriminate Hgt.
Defined.

Lemma move_age_counts_from_newest_witness :
  move_age evicting_game 0 0 = 3 ∧
  vanish_in evicting_game 0 = 2 * 2 - move_age evicting_game 0 0.
Proof.
  destruct (move_age_counts_from_newest 2 evicting_game reachable_evicting_game)
    as [Hage _].
  destruct (Hage 0%nat _ oldest_of_evicting_game) as (Heq & _ & Hvan).
  split; [|exact Hvan].
  etransitivity; [exact Heq | closed].
Defined.

Lemma marks_balanced_witness :
  (count_mark "X" (board evicting_game)
   ≤ count_mark "O" (board evicting_game) + 1)%nat ∧
  (count_mark "O" (board evicting_game)
   ≤ count_mark "X" (board evicting_game) + 1)%nat.
Proof.
  destruct (marks_balanced 2 evicting_game reachable_evicting_game)
    as (_ & _ & HX & HO).
  split; [exact HX | exact HO].
Defined.
